(** * py-cifsdk: the feed engine (aggregation and whitelist filtering)

    A shallow embedding of [cifsdk/client.py] ([Client.aggregate] and the
    feed branch of [main]) and of [cifsdk/feed/] ([factory], [Ipv4],
    [Fqdn]), with the properties of the feed specification stated and
    proved over it. *)

From Stdlib Require Import ZArith String Ascii List Sorted Permutation.
From stdpp Require Import base option list strings pretty gmap sorting.

Local Open Scope string_scope.
Local Open Scope list_scope.
Local Open Scope Z_scope.

(** ** Python values, exceptions and dictionaries *)

Module Py.

(** The values the decoded JSON records hold: numbers (confidence),
    strings (observable, otype, timestamps) and lists of strings (tags). *)
Inductive value : Type :=
  | VInt (n : Z)
  | VStr (s : string)
  | VList (l : list string).

(** The Python exceptions the modelled code can raise. *)
Inductive exn : Type :=
  | KeyError (k : string)
  | TypeError
  | ValueError
  | AttributeError.

Inductive res (A : Type) : Type :=
  | Ok (a : A)
  | Raise (e : exn).
Arguments Ok {A} a.
Arguments Raise {A} e.

#[export] Instance res_ret : MRet res := fun _ a => Ok a.
#[export] Instance res_bind : MBind res := fun _ _ f m =>
  match m with
  | Ok a => f a
  | Raise e => Raise e
  end.

#[export] Instance value_eq_dec : EqDecision value.
Proof. solve_decision. Defined.

#[export] Instance exn_eq_dec : EqDecision exn.
Proof. solve_decision. Defined.

#[export] Instance res_eq_dec {A} `{EqDecision A} : EqDecision (res A).
Proof. solve_decision. Defined.

Definition value_to_sum (v : value) : Z + (string + list string) :=
  match v with
  | VInt n => inl n
  | VStr s => inr (inl s)
  | VList l => inr (inr l)
  end.

Definition value_of_sum (x : Z + (string + list string)) : value :=
  match x with
  | inl n => VInt n
  | inr (inl s) => VStr s
  | inr (inr l) => VList l
  end.

#[export] Instance value_countable : Countable value.
Proof.
  apply (inj_countable' value_to_sum value_of_sum).
  intros []; reflexivity.
Defined.

(** A record is a Python [dict] keyed by field name. *)
Abbreviation record := (gmap string value).

(** [d[k]]: raises [KeyError] when the key is absent. *)
Definition getitem (d : record) (k : string) : res value :=
  match d !! k with
  | Some v => Ok v
  | None => Raise (KeyError k)
  end.

(** [hash(v)], as the membership test and [add] of a [set] need it: a
    list is unhashable. *)
Definition hashable (v : value) : res unit :=
  match v with
  | VList _ => Raise TypeError
  | _ => Ok tt
  end.

(** Lexicographic comparison of lists of strings. *)
Fixpoint list_compare (a b : list string) : comparison :=
  match a, b with
  | [], [] => Eq
  | [], _ :: _ => Lt
  | _ :: _, [] => Gt
  | x :: a', y :: b' =>
      match String.compare x y with
      | Eq => list_compare a' b'
      | c => c
      end
  end.

(** Python 3 ordering: numbers with numbers, strings with strings (by code
    point), lists with lists (lexicographic); values of different types are
    unorderable, and [<] between them raises [TypeError]. *)
Definition py_compare (a b : value) : option comparison :=
  match a, b with
  | VInt x, VInt y => Some (Z.compare x y)
  | VStr x, VStr y => Some (String.compare x y)
  | VList x, VList y => Some (list_compare x y)
  | _, _ => None
  end.

(** [a < b] *)
Definition py_lt (a b : value) : res bool :=
  match py_compare a b with
  | Some Lt => Ok true
  | Some _ => Ok false
  | None => Raise TypeError
  end.

(** [sorted(data, key=..., reverse=True)] on the decorated list of
    (key, element) pairs.  Python's sort is stable, also with
    [reverse=True]: elements whose keys compare equal keep their input
    order.  The stable descending order is produced here by insertion from
    the right: an element goes behind exactly those elements of the sorted
    tail that it is smaller than.  Like every comparison sort, it raises
    [TypeError] exactly when two or more keys of different types meet. *)
Fixpoint insert_desc {A} (kx : value * A) (l : list (value * A))
  : res (list (value * A)) :=
  match l with
  | [] => Ok [kx]
  | ky :: l' =>
      b ← py_lt kx.1 ky.1;
      if b : bool then r ← insert_desc kx l'; Ok (ky :: r)
      else Ok (kx :: ky :: l')
  end.

Fixpoint sort_desc {A} (l : list (value * A)) : res (list (value * A)) :=
  match l with
  | [] => Ok []
  | kx :: l' => s ← sort_desc l'; insert_desc kx s
  end.

(** The decoration: the key function is applied to every element, in
    order, before any comparison is made. *)
Fixpoint decorate (key : string) (data : list record)
  : res (list (value * record)) :=
  match data with
  | [] => Ok []
  | d :: data' =>
      k ← getitem d key;
      r ← decorate key data';
      Ok ((k, d) :: r)
  end.

Definition sorted_reverse (data : list record) (key : string)
  : res (list record) :=
  dec ← decorate key data;
  s ← sort_desc dec;
  Ok (map snd s).

End Py.

(** ** cifsdk/client.py *)

Module Client.
Import Py.

(** The loop of [Client.aggregate]: [x] is the set of key values seen so
    far, [rv] the records kept so far. *)
Fixpoint aggregate_loop (field : string) (ds : list record)
    (x : gset value) (rv : list record) : res (list record) :=
  match ds with
  | [] => Ok rv
  | d :: ds' =>
      k ← getitem d field;
      _ ← hashable k;
      if decide (k ∈ x) then aggregate_loop field ds' x rv
      else aggregate_loop field ds' ({[k]} ∪ x) (rv ++ [d])
  end.

(** [Client.aggregate(data, field, sort)] *)
Definition aggregate (data : list record) (field sort : string)
  : res (list record) :=
  s ← sorted_reverse data sort;
  aggregate_loop field s ∅ [].

(** The defaults of the signature: [field='observable', sort='confidence']. *)
Definition aggregate_default (data : list record) : res (list record) :=
  aggregate data "observable" "confidence".

End Client.

(** ** String operations of the Python standard library *)

Module PyStr.
Import Py.

(** [c in s] for a one-character string [c]. *)
Fixpoint contains_char (c : ascii) (s : string) : bool :=
  match s with
  | EmptyString => false
  | String a s' => if decide (a = c) then true else contains_char c s'
  end.

(** [s.split(c)]: the empty string splits into one empty piece. *)
Fixpoint split (c : ascii) (s : string) : list string :=
  match s with
  | EmptyString => [EmptyString]
  | String a s' =>
      if decide (a = c) then EmptyString :: split c s'
      else match split c s' with
           | h :: t => String a h :: t
           | [] => [String a EmptyString]
           end
  end.

(** [sep.join(l)] *)
Fixpoint join (sep : string) (l : list string) : string :=
  match l with
  | [] => EmptyString
  | [x] => x
  | x :: l' => x +:+ sep +:+ join sep l'
  end.

(** [str(v)]: a string is itself, a number its decimal digits; a list is
    rendered as its [repr], here without the escapes that [repr] puts into
    quoted strings. *)
Definition str (v : value) : string :=
  match v with
  | VStr s => s
  | VInt n => pretty n
  | VList l => "[" +:+ join ", " (map (fun s => "'" +:+ s +:+ "'") l) +:+ "]"
  end.

End PyStr.

(** ** The [pytricia] package (external): a longest-prefix-match table

    [PyTricia] is not part of this repository.  It is modelled by what the
    feed code relies on: [wl[p] = True] inserts the prefix written in [p],
    [k in wl] holds when some inserted prefix covers the address or prefix
    written in [k]; a key that does not parse raises [ValueError].

    A key is cut at its first '/'.  The address before it is a strict
    dotted quad (four decimal octets up to 255, none with a leading zero);
    the length after it is read like C's [atol], and a length outside
    0..32 counts as 32.  A key without '/' is a single address when it is
    looked up; when it is inserted, the table stores it with length 0, as
    the comment at the work-around in [Ipv4.process] records ("it'll
    insert 172.16.1.60 with a /0 at the end"). *)

Module Pytricia.
Import Py PyStr.

Record prefix : Type := Prefix { network : Z; bitlen : Z }.

Definition digit_of (a : ascii) : option Z :=
  let n := Z.of_N (N_of_ascii a) in
  if (48 <=? n) && (n <=? 57) then Some (n - 48) else None.

Fixpoint digits (acc : Z) (s : string) : option Z :=
  match s with
  | EmptyString => Some acc
  | String a s' =>
      match digit_of a with
      | Some d => digits (10 * acc + d) s'
      | None => None
      end
  end.

(** An octet: decimal digits, at least one, no leading zero unless the
    octet is 0 itself, value up to 255. *)
Definition octet (s : string) : option Z :=
  match s with
  | EmptyString => None
  | String a s' =>
      if bool_decide (a = "0"%char) && negb (bool_decide (s' = EmptyString))
      then None
      else match digits 0 s with
           | Some n => if n <=? 255 then Some n else None
           | None => None
           end
  end.

(** A dotted quad, as a 32-bit number. *)
Definition parse_addr (s : string) : option Z :=
  match split "." s with
  | [a; b; c; d] =>
      match octet a, octet b, octet c, octet d with
      | Some a, Some b, Some c, Some d =>
          Some (Z.lor (Z.shiftl a 24) (Z.lor (Z.shiftl b 16) (Z.lor (Z.shiftl c 8) d)))
      | _, _, _, _ => None
      end
  | _ => None
  end.

(** The part of [s] before the first [c], and the part after it when
    there is a [c]. *)
Fixpoint cut (c : ascii) (s : string) : string * option string :=
  match s with
  | EmptyString => (EmptyString, None)
  | String a s' =>
      if decide (a = c) then (EmptyString, Some s')
      else (String a (cut c s').1, (cut c s').2)
  end.

(** [atol]: blanks, an optional sign, then the decimal digits up to the
    first other character. *)
Definition is_space (a : ascii) : bool :=
  let n := Z.of_N (N_of_ascii a) in
  (n =? 32) || ((9 <=? n) && (n <=? 13)).

Fixpoint skip_space (s : string) : string :=
  match s with
  | String a s' => if is_space a then skip_space s' else s
  | EmptyString => EmptyString
  end.

Fixpoint leading_digits (acc : Z) (s : string) : Z :=
  match s with
  | EmptyString => acc
  | String a s' =>
      match digit_of a with
      | Some d => leading_digits (10 * acc + d) s'
      | None => acc
      end
  end.

Definition atol (s : string) : Z :=
  match skip_space s with
  | String a s' =>
      if bool_decide (a = "-"%char) then - leading_digits 0 s'
      else if bool_decide (a = "+"%char) then leading_digits 0 s'
      else leading_digits 0 (String a s')
  | EmptyString => 0
  end.

(** The length written after the '/': outside 0..32 it is 32. *)
Definition prefix_length (l : string) : Z :=
  let n := atol l in
  if (0 <=? n) && (n <=? 32) then n else 32.

(** The prefix a looked-up key denotes: [a.b.c.d] is the single address
    [a.b.c.d/32]. *)
Definition parse_prefix (s : string) : option prefix :=
  match cut "/" s with
  | (a, None) =>
      match parse_addr a with
      | Some n => Some (Prefix n 32)
      | None => None
      end
  | (a, Some l) =>
      match parse_addr a with
      | Some n => Some (Prefix n (prefix_length l))
      | None => None
      end
  end.

(** The prefix stored for an inserted key: as written when the key has a
    '/', with length 0 when it has none. *)
Definition insert_prefix (s : string) : option prefix :=
  match cut "/" s with
  | (a, None) =>
      match parse_addr a with
      | Some n => Some (Prefix n 0)
      | None => None
      end
  | (_, Some _) => parse_prefix s
  end.

(** [p] covers [q]: [p] is at most as long as [q] and they agree on the
    first [bitlen p] bits. *)
Definition covers (p q : prefix) : bool :=
  (bitlen p <=? bitlen q) &&
  (Z.shiftr (network p) (32 - bitlen p) =? Z.shiftr (network q) (32 - bitlen p)).

(** The table: the prefixes inserted so far. *)
Abbreviation t := (list prefix).

Definition empty : t := [].

(** [wl[key] = True] *)
Definition setitem (wl : t) (key : string) : res t :=
  match insert_prefix key with
  | Some p => Ok (p :: wl)
  | None => Raise ValueError
  end.

(** [key in wl] *)
Definition contains (wl : t) (key : string) : res bool :=
  match parse_prefix key with
  | Some q => Ok (existsb (fun p => covers p q) wl)
  | None => Raise ValueError
  end.

End Pytricia.

(** ** cifsdk/feed/__init__.py *)

Module Feed.
Import Py.

Inductive plugin : Type := Ipv4 | Ipv6 | Fqdn | Url.

(** The [plugins] table. *)
Definition plugins : gmap string plugin :=
  <["ipv4" := Ipv4]> (<["ipv6" := Ipv6]> (<["fqdn" := Fqdn]> (<["url" := Url]> ∅))).

(** [factory(name)]: the plugin class, or [None]. *)
Definition factory (name : string) : option plugin := plugins !! name.

(** [tag_contains_whitelist(data)]: [True] when an element of [data] is
    the string 'whitelist', [None] (false) otherwise.  Iterating a string
    yields its characters, none of which is 'whitelist'; a number is not
    iterable. *)
Definition tag_contains_whitelist (data : value) : res bool :=
  match data with
  | VList l => Ok (existsb (fun d => bool_decide (d = "whitelist")) l)
  | VStr _ => Ok false
  | VInt _ => Raise TypeError
  end.

(** An element of the [whitelist] argument: a record (what [main] passes,
    the result of a search) or a plain value (a domain string). *)
Inductive obj : Type :=
  | OVal (v : value)
  | ODict (d : record).

(** [y[k]] on such an element: only a dict can be indexed by a string. *)
Definition subscript (y : obj) (k : string) : res value :=
  match y with
  | ODict d => getitem d k
  | OVal _ => Raise TypeError
  end.

End Feed.

(** ** cifsdk/feed/ipv4.py *)

Module FeedIpv4.
Import Py PyStr Feed.

Definition PERM_WHITELIST : list string :=
  [ "0.0.0.0/8"; "10.0.0.0/8"; "127.0.0.0/8"; "192.168.0.0/16";
    "169.254.0.0/16"; "192.0.2.0/24"; "224.0.0.0/4"; "240.0.0.0/5";
    "248.0.0.0/5" ].

(** [for x in PERM_WHITELIST: wl[x] = True] *)
Fixpoint insert_perm (wl : Pytricia.t) (l : list string) : res Pytricia.t :=
  match l with
  | [] => Ok wl
  | x :: l' => wl' ← Pytricia.setitem wl x; insert_perm wl' l'
  end.

(** The key under which a whitelist entry is inserted: a bare address gets
    the suffix /32. *)
Definition entry_key (y : string) : string :=
  if contains_char "/" y then y else y +:+ "/32".

(** [for y in whitelist: ...; wl[y] = True] *)
Fixpoint insert_whitelist (wl : Pytricia.t) (whitelist : list obj)
  : res Pytricia.t :=
  match whitelist with
  | [] => Ok wl
  | y :: rest =>
      o ← subscript y "observable";
      wl' ← Pytricia.setitem wl (entry_key (str o));
      insert_whitelist wl' rest
  end.

(** [for y in data: ...] with the result list [rv]. *)
Fixpoint filter_loop (wl : Pytricia.t) (data rv : list record)
  : res (list record) :=
  match data with
  | [] => Ok rv
  | y :: data' =>
      tags ← getitem y "tags";
      w ← tag_contains_whitelist tags;
      if w : bool then filter_loop wl data' rv
      else
        o ← getitem y "observable";
        c ← Pytricia.contains wl (str o);
        if c : bool then filter_loop wl data' rv
        else filter_loop wl data' (rv ++ [y])
  end.

(** [Ipv4().process(data, whitelist)] *)
Definition process (data : list record) (whitelist : list obj)
  : res (list record) :=
  wl ← insert_perm Pytricia.empty PERM_WHITELIST;
  wl ← insert_whitelist wl whitelist;
  filter_loop wl data [].

End FeedIpv4.

(** ** cifsdk/feed/fqdn.py *)

Module FeedFqdn.
Import Py PyStr Feed.

Definition PERM_WHITELIST : list string :=
  [ "google.com"; "yahoo.com"; "facebook.com"; "youtube.com"; "netflix.com";
    "baidu.com"; "wikipedia.org"; "twitter.com"; "qq.com"; "taobao.com";
    "amazon.com"; "live.com"; "bing.com"; "wordpress.com"; "msn.com";
    "update.symantec.com" ].

(** The instance state: the set [self.wl]. *)
Abbreviation state := (gset value).

(** [Fqdn()] *)
Definition init : state :=
  fold_left (fun wl w => {[VStr w]} ∪ wl) PERM_WHITELIST ∅.

(** The loop of [match_whitelist]: [for i, b in enumerate(bits)] walks the
    list [bits] by position [i] while the body removes its first element
    ([bits.pop(0)]); the iterator stops as soon as [i] is no longer a
    position of the (shortened) list. *)
Fixpoint match_loop (wl : state) (i : nat) (bits : list string) : bool :=
  match bits with
  | [] => false
  | _ :: bits' =>
      if (i <? length bits)%nat then
        if decide (VStr (join "." bits) ∈ wl) then true
        else match_loop wl (S i) bits'
      else false
  end.

(** [match_whitelist(wl, d)]: [True], or [None] (false).  [d.split] exists
    on strings only. *)
Definition match_whitelist (wl : state) (d : value) : res bool :=
  match d with
  | VStr s => Ok (match_loop wl 0 (split "." s))
  | _ => Raise AttributeError
  end.

(** [for w in whitelist: wl.add(w)] on the set aliased by [self.wl]: the
    additions made before an exception stay. *)
Fixpoint add_all (wl : state) (whitelist : list obj) : res unit * state :=
  match whitelist with
  | [] => (Ok tt, wl)
  | OVal v :: rest =>
      match hashable v with
      | Ok _ => add_all ({[v]} ∪ wl) rest
      | Raise e => (Raise e, wl)
      end
  | ODict _ :: _ => (Raise TypeError, wl)
  end.

Fixpoint filter_loop (wl : state) (data rv : list record)
  : res (list record) :=
  match data with
  | [] => Ok rv
  | x :: data' =>
      o ← getitem x "observable";
      m ← match_whitelist wl o;
      if m : bool then filter_loop wl data' rv
      else filter_loop wl data' (rv ++ [x])
  end.

(** [self.process(data, whitelist)]: the result and the instance state
    afterwards. *)
Definition process (self : state) (data : list record) (whitelist : list obj)
  : res (list record) * state :=
  match add_all self whitelist with
  | (Ok _, wl) => (filter_loop wl data [], wl)
  | (Raise e, wl) => (Raise e, wl)
  end.

End FeedFqdn.

(** ** cifsdk/client.py: the feed branch of [main] *)

Module Main.
Import Py Feed.

(** What the branch has done by the time it ends. *)
Inductive event : Type :=
  | EvAggregate
  | EvProcess (p : plugin).

Section feed.
(** [cifsdk/feed/ipv6.py] and [cifsdk/feed/url.py] are not among the
    sources: their [process] methods are parameters. *)
Variable ipv6_process url_process : list record → list obj → res (list record).

(** [f().process(ret, wl)] for a plugin class [f]; a fresh [Fqdn]
    instance is made for the call. *)
Definition run (f : plugin) (ret : list record) (wl : list obj)
  : res (list record) :=
  match f with
  | Ipv4 => FeedIpv4.process ret wl
  | Ipv6 => ipv6_process ret wl
  | Fqdn => (FeedFqdn.process FeedFqdn.init ret wl).1
  | Url => url_process ret wl
  end.

(** [f = feed_factory(options['otype']); ret = cli.aggregate(ret);
    ret = f().process(ret, wl)], with [ret] and [wl] the two search
    results.  Calling [f()] when [f] is [None] raises [TypeError]. *)
Definition feed (otype : string) (ret wl : list record)
  : list event * res (list record) :=
  let f := factory otype in
  match Client.aggregate_default ret with
  | Raise e => ([EvAggregate], Raise e)
  | Ok ret' =>
      match f with
      | None => ([EvAggregate], Raise TypeError)
      | Some p => ([EvAggregate; EvProcess p], run p ret' (ODict <$> wl))
      end
  end.
End feed.

End Main.

(** ** Vocabulary of the statements *)

Module Spec.
Import Py PyStr Feed.

(** The type of a value, as far as ordering is concerned. *)
Definition kind (v : value) : nat :=
  match v with
  | VInt _ => 0
  | VStr _ => 1
  | VList _ => 2
  end%nat.

(** Comparison of two records by the field [sort]. *)
Definition rank_cmp (sort : string) (a b : record) : option comparison :=
  match a !! sort, b !! sort with
  | Some x, Some y => py_compare x y
  | _, _ => None
  end.

Definition rank_ltb (sort : string) (a b : record) : bool :=
  match rank_cmp sort a b with
  | Some Lt => true
  | _ => false
  end.

Definition rank_geb (sort : string) (a b : record) : bool :=
  match rank_cmp sort a b with
  | Some Gt | Some Eq => true
  | _ => false
  end.

(** The record's [tags] list holds the string 'whitelist'. *)
Definition tagged_whitelist (d : record) : Prop :=
  ∃ l, d !! "tags" = Some (VList l) ∧ "whitelist" ∈ l.

(** In a decorated list, [a] does not sort behind [b]. *)
Definition key_ge {A} (a b : value * A) : Prop := py_lt a.1 b.1 = Ok false.

(** The decision [Fqdn.process] takes on one record: [Ok true] when the
    record is left out. *)
Definition fqdn_excluded (wl : FeedFqdn.state) (x : record) : res bool :=
  o ← getitem x "observable";
  FeedFqdn.match_whitelist wl o.

(** The decision [Ipv4.process] takes on one record. *)
Definition ipv4_excluded (wl : Pytricia.t) (y : record) : res bool :=
  tags ← getitem y "tags";
  w ← tag_contains_whitelist tags;
  if w : bool then Ok true
  else o ← getitem y "observable"; Pytricia.contains wl (str o).

(** ASCII case folding, for the statement of case-insensitivity. *)
Definition lower_char (a : ascii) : ascii :=
  let n := N_of_ascii a in
  if ((65 <=? n) && (n <=? 90))%N then ascii_of_N (n + 32) else a.

Fixpoint lower (s : string) : string :=
  match s with
  | EmptyString => EmptyString
  | String a s' => String (lower_char a) (lower s')
  end.

(** [w] is [d] itself or a dot-delimited, label-aligned suffix of [d]. *)
Definition label_suffix (w d : string) : Prop :=
  d = w ∨ ∃ p, d = p +:+ "." +:+ w.

End Spec.

(** ** Sample records *)

Module Samples.
Import Py.

Definition mk (o : string) (c : Z) (t : list string) : record :=
  <["observable" := VStr o]>
    (<["confidence" := VInt c]> (<["tags" := VList t]> ∅)).

(** The sample scenario of the specification. *)
Definition scenario : list record :=
  [ mk "1.2.3.4" 85 []; mk "1.2.3.4" 40 []; mk "10.1.1.1" 90 [] ].

(** A record without the [observable] field, tagged as a whitelist entry. *)
Definition tagged_only : record := <["tags" := VList ["whitelist"]]> ∅.

End Samples.

(** ** cifsdk/client.py: [main] between the search and the output *)

Module MainFlow.
Import Py Feed.

Section flow.
Variable ipv6_process url_process : list record → list obj → res (list record).

(** [if options.get('aggregate'): ret = cli.aggregate(ret,
    field=options['aggregate'])] followed by [if options.get('feed'): ...]:
    [aggregate] is the value of [--aggregate] ([None] when absent; the
    empty string is false as well), [feed] whether [--feed] was given,
    [ret] and [wl] the results of the two searches.  The value is the
    list handed to the formatter. *)
Definition results (aggregate : option string) (feed : bool) (otype : string)
    (ret wl : list record) : res (list record) :=
  ret ← match aggregate with
        | Some field =>
            if decide (field = "") then Ok ret
            else Client.aggregate ret field "confidence"
        | None => Ok ret
        end;
  if feed then (Main.feed ipv6_process url_process otype ret wl).2
  else Ok ret.
End flow.

End MainFlow.

(** ** Vocabulary of the further statements *)

Module SpecMore.
Import Py PyStr Feed.

(** [p] is a prefix of the table [Ipv4.process] builds from the dynamic
    whitelist [W]: a block of the permanent list, or the observable of an
    entry of [W] under its insertion key. *)
Definition ipv4_listed (W : list obj) (p : Pytricia.prefix) : Prop :=
  (∃ x, x ∈ FeedIpv4.PERM_WHITELIST ∧ Pytricia.parse_prefix x = Some p) ∨
  (∃ y o, y ∈ W ∧ subscript y "observable" = Ok o ∧
          Pytricia.parse_prefix (FeedIpv4.entry_key (str o)) = Some p).

End SpecMore.

(** * Properties *)

(** ** The ordering of values *)

Module OrderFacts.
Import Py.

Lemma ascii_compare_refl (a : ascii) : Ascii.compare a a = Eq.
Proof. unfold Ascii.compare. apply N.compare_refl. Qed.

Lemma ascii_compare_lt_trans (a b c : ascii) :
  Ascii.compare a b = Lt → Ascii.compare b c = Lt → Ascii.compare a c = Lt.
Proof.
  unfold Ascii.compare. rewrite !N.compare_lt_iff. apply N.lt_trans.
Qed.

Lemma string_compare_refl (s : string) : String.compare s s = Eq.
Proof.
  induction s as [|a s IH]; simpl; [done|].
  by rewrite ascii_compare_refl.
Qed.

Lemma string_compare_lt_trans (s1 s2 s3 : string) :
  String.compare s1 s2 = Lt → String.compare s2 s3 = Lt →
  String.compare s1 s3 = Lt.
Proof.
  revert s2 s3. induction s1 as [|a s1 IH]; intros [|b s2] [|c s3]; simpl;
    try done.
  destruct (Ascii.compare a b) eqn:Hab; try done;
    destruct (Ascii.compare b c) eqn:Hbc; try done; intros H1 H2.
  - apply Ascii.compare_eq_iff in Hab, Hbc. subst.
    rewrite ascii_compare_refl. eauto.
  - apply Ascii.compare_eq_iff in Hab. subst. by rewrite Hbc.
  - apply Ascii.compare_eq_iff in Hbc. subst. by rewrite Hab.
  - by rewrite (ascii_compare_lt_trans _ _ _ Hab Hbc).
Qed.

Lemma list_compare_refl (l : list string) : list_compare l l = Eq.
Proof.
  induction l as [|a l IH]; simpl; [done|].
  by rewrite string_compare_refl.
Qed.

Lemma list_compare_eq (l1 l2 : list string) :
  list_compare l1 l2 = Eq → l1 = l2.
Proof.
  revert l2. induction l1 as [|a l1 IH]; intros [|b l2]; simpl; try done.
  destruct (String.compare a b) eqn:Hab; try done.
  apply String.compare_eq_iff in Hab. intros H. f_equal; auto.
Qed.

Lemma list_compare_antisym (l1 l2 : list string) :
  list_compare l1 l2 = CompOpp (list_compare l2 l1).
Proof.
  revert l2. induction l1 as [|a l1 IH]; intros [|b l2]; simpl; try done.
  rewrite (String.compare_antisym a b).
  destruct (String.compare b a); simpl; auto.
Qed.

Lemma list_compare_lt_trans (l1 l2 l3 : list string) :
  list_compare l1 l2 = Lt → list_compare l2 l3 = Lt →
  list_compare l1 l3 = Lt.
Proof.
  revert l2 l3. induction l1 as [|a l1 IH]; intros [|b l2] [|c l3]; simpl;
    try done.
  destruct (String.compare a b) eqn:Hab; try done;
    destruct (String.compare b c) eqn:Hbc; try done; intros H1 H2.
  - apply String.compare_eq_iff in Hab, Hbc. subst.
    rewrite string_compare_refl. eauto.
  - apply String.compare_eq_iff in Hab. subst. by rewrite Hbc.
  - apply String.compare_eq_iff in Hbc. subst. by rewrite Hab.
  - by rewrite (string_compare_lt_trans _ _ _ Hab Hbc).
Qed.

(** [py_compare] is a strict total order on the values of one type. *)

Lemma py_compare_refl (a : value) : py_compare a a = Some Eq.
Proof.
  destruct a; simpl; f_equal;
    auto using Z.compare_refl, string_compare_refl, list_compare_refl.
Qed.

Lemma py_compare_eq (a b : value) : py_compare a b = Some Eq → a = b.
Proof.
  destruct a, b; simpl; try done; intros [= H]; f_equal.
  - by apply Z.compare_eq.
  - by apply String.compare_eq_iff.
  - by apply list_compare_eq.
Qed.

Lemma py_compare_antisym (a b : value) :
  py_compare a b = CompOpp <$> py_compare b a.
Proof.
  destruct a, b; simpl; try done; f_equal.
  - apply Z.compare_antisym.
  - apply String.compare_antisym.
  - apply list_compare_antisym.
Qed.

Lemma py_compare_lt_trans (a b c : value) :
  py_compare a b = Some Lt → py_compare b c = Some Lt →
  py_compare a c = Some Lt.
Proof.
  destruct a, b, c; simpl; try done; intros [= H1] [= H2]; f_equal.
  - rewrite Z.compare_lt_iff in *. lia.
  - eauto using string_compare_lt_trans.
  - eauto using list_compare_lt_trans.
Qed.

(** The same for [<] as the sort calls it. *)

Lemma py_lt_Ok (a b : value) (r : bool) :
  py_lt a b = Ok r ↔
  ∃ c, py_compare a b = Some c ∧ r = match c with Lt => true | _ => false end.
Proof.
  unfold py_lt. destruct (py_compare a b) as [[]|]; split;
    try (intros [= <-]; eauto); try (intros (c & [= <-] & ->); done);
    try done; by intros (c & ? & _).
Qed.

Lemma py_lt_irrefl (a : value) : py_lt a a = Ok false.
Proof. unfold py_lt. by rewrite py_compare_refl. Qed.

Lemma py_lt_asym (a b : value) : py_lt a b = Ok true → py_lt b a = Ok false.
Proof.
  unfold py_lt. rewrite (py_compare_antisym b a).
  destruct (py_compare a b) as [[]|]; simpl; done.
Qed.

Lemma py_lt_connex (a b : value) :
  py_lt a b = Ok false → a ≠ b → py_lt b a = Ok true.
Proof.
  unfold py_lt. rewrite (py_compare_antisym b a).
  destruct (py_compare a b) as [[]|] eqn:E; simpl; try done.
  intros _ []. by apply py_compare_eq.
Qed.

Lemma py_ge_trans (a b c : value) :
  py_lt a b = Ok false → py_lt b c = Ok false → py_lt a c = Ok false.
Proof.
  intros Hab Hbc.
  destruct (decide (a = b)) as [->|Hne]; [done|].
  destruct (decide (b = c)) as [->|Hne']; [done|].
  apply py_lt_connex in Hab, Hbc; try done.
  apply py_lt_Ok in Hab as (c1 & Hba & E1), Hbc as (c2 & Hcb & E2).
  destruct c1, c2; try done.
  apply py_lt_asym. unfold py_lt.
  by rewrite (py_compare_lt_trans _ _ _ Hcb Hba).
Qed.

Lemma py_lt_same_kind (a b : value) :
  Spec.kind a = Spec.kind b → ∃ r, py_lt a b = Ok r.
Proof.
  unfold py_lt. destruct a as [x|x|x], b as [y|y|y]; simpl; try done; intros _.
  - destruct (x ?= y); eauto.
  - destruct (String.compare x y); eauto.
  - destruct (list_compare x y); eauto.
Qed.

End OrderFacts.

(** ** The stable descending sort *)

Module SortFacts.
Import Py Spec OrderFacts.

Section sort.
Context {A : Type}.
Implicit Types (kx : value * A) (l r : list (value * A)).

Lemma insert_desc_perm kx l r : insert_desc kx l = Ok r → r ≡ₚ kx :: l.
Proof.
  revert r. induction l as [|ky l IH]; simpl; intros r.
  - by intros [= <-].
  - destruct (py_lt kx.1 ky.1) as [[]|]; simpl; try done.
    + destruct (insert_desc kx l) as [r'|]; simpl; try done.
      intros [= <-]. rewrite (IH r' eq_refl). apply Permutation_swap.
    + by intros [= <-].
Qed.

Lemma insert_desc_sorted kx l r :
  StronglySorted key_ge l → insert_desc kx l = Ok r → StronglySorted key_ge r.
Proof.
  revert r. induction l as [|ky l IH]; simpl; intros r Hs.
  - intros [= <-]. repeat constructor.
  - apply StronglySorted_cons in Hs as [Hky Hs].
    destruct (py_lt kx.1 ky.1) as [[]|] eqn:E; simpl; try done.
    + destruct (insert_desc kx l) as [r'|] eqn:Hr; simpl; try done.
      intros [= <-]. apply StronglySorted_cons. split; [|by apply IH].
      rewrite (insert_desc_perm _ _ _ Hr). constructor; [|done].
      by apply py_lt_asym.
    + intros [= <-]. apply StronglySorted_cons. split.
      * constructor; [done|]. eapply Forall_impl; [exact Hky|].
        intros z Hz. unfold key_ge in *. eauto using py_ge_trans.
      * by apply StronglySorted_cons.
Qed.

Lemma insert_desc_filter (v : value) kx l r :
  insert_desc kx l = Ok r →
  filter (λ p, p.1 = v) r = filter (λ p, p.1 = v) (kx :: l).
Proof.
  revert r. induction l as [|ky l IH]; simpl; intros r.
  - by intros [= <-].
  - destruct (py_lt kx.1 ky.1) as [[]|] eqn:E; simpl; try done.
    + destruct (insert_desc kx l) as [r'|] eqn:Hr; simpl; try done.
      intros [= <-]. rewrite !filter_cons, (IH r' eq_refl), !filter_cons.
      repeat case_decide; try done.
      assert (kx.1 = ky.1) as Heq by congruence.
      rewrite Heq, py_lt_irrefl in E. done.
    + by intros [= <-].
Qed.

Lemma insert_desc_ok kx l :
  Forall (λ p, Spec.kind p.1 = Spec.kind kx.1) l → ∃ r, insert_desc kx l = Ok r.
Proof.
  induction 1 as [|ky l Hk _ [r' IH]]; simpl; [eauto|].
  destruct (py_lt_same_kind kx.1 ky.1) as [[] ->]; [done| |]; simpl; eauto.
  rewrite IH. simpl. eauto.
Qed.

Lemma sort_desc_perm l r : sort_desc l = Ok r → r ≡ₚ l.
Proof.
  revert r. induction l as [|kx l IH]; simpl; intros r.
  - by intros [= <-].
  - destruct (sort_desc l) as [s|]; simpl; try done.
    intros H%insert_desc_perm. by rewrite H, (IH s).
Qed.

Lemma sort_desc_sorted l r : sort_desc l = Ok r → StronglySorted key_ge r.
Proof.
  revert r. induction l as [|kx l IH]; simpl; intros r.
  - intros [= <-]. constructor.
  - destruct (sort_desc l) as [s|]; simpl; try done.
    apply insert_desc_sorted. by apply IH.
Qed.

(** Stability: the elements of one key value keep their input order. *)
Lemma sort_desc_stable (v : value) l r :
  sort_desc l = Ok r →
  filter (λ p, p.1 = v) r = filter (λ p, p.1 = v) l.
Proof.
  revert r. induction l as [|kx l IH]; simpl; intros r.
  - by intros [= <-].
  - destruct (sort_desc l) as [s|]; simpl; try done.
    intros H%(insert_desc_filter v). rewrite H, !filter_cons, (IH s); done.
Qed.

Lemma sort_desc_ok (k : nat) l :
  Forall (λ p, Spec.kind p.1 = k) l → ∃ r, sort_desc l = Ok r.
Proof.
  induction 1 as [|kx l Hk Hl [s IH]]; simpl; [eauto|].
  rewrite IH. simpl. apply insert_desc_ok.
  rewrite (sort_desc_perm _ _ IH). eapply Forall_impl; [exact Hl|].
  simpl. congruence.
Qed.
End sort.

End SortFacts.

(** ** [Client.aggregate] *)

Module AggregateFacts.
Import Py Client Spec OrderFacts SortFacts.

Lemma decorate_inv (key : string) (data : list record) dec :
  decorate key data = Ok dec →
  dec.*2 = data ∧ Forall (λ p, p.2 !! key = Some p.1) dec.
Proof.
  revert dec. induction data as [|d data IH]; simpl; intros dec.
  - intros [= <-]. by split.
  - unfold getitem. destruct (d !! key) as [v|] eqn:Hv; simpl; try done.
    destruct (decorate key data) as [r|]; simpl; try done.
    intros [= <-]. destruct (IH r eq_refl) as [<- HF]. split; [done|].
    by constructor.
Qed.

Lemma decorate_ok (key : string) (data : list record) (k : nat) :
  Forall (λ d, ∃ v, d !! key = Some v ∧ kind v = k) data →
  ∃ dec, decorate key data = Ok dec ∧ Forall (λ p, kind p.1 = k) dec.
Proof.
  induction 1 as [|d data (v & Hv & Hk) _ (r & IH & HF)]; simpl; [eauto|].
  unfold getitem. rewrite Hv, IH. simpl. eauto.
Qed.

Lemma rank_geb_of_ge (sort : string) (p q : value * record) :
  p.2 !! sort = Some p.1 → q.2 !! sort = Some q.1 → key_ge p q →
  rank_geb sort p.2 q.2 = true.
Proof.
  unfold key_ge, rank_geb, rank_cmp. intros -> -> (c & -> & Hc)%py_lt_Ok.
  by destruct c.
Qed.

Lemma sorted_snd (sort : string) (s : list (value * record)) :
  Forall (λ p, p.2 !! sort = Some p.1) s → StronglySorted key_ge s →
  StronglySorted (λ a b, rank_geb sort a b = true) s.*2.
Proof.
  intros HF. induction 1 as [|p s Hs IH Hp]; simpl; [constructor|].
  apply Forall_cons in HF as [Hp1 HF]. constructor; [by apply IH|].
  rewrite Forall_fmap. rewrite Forall_forall in HF, Hp.
  apply Forall_forall. intros q Hq. simpl.
  apply rank_geb_of_ge; auto.
Qed.

Lemma filter_snd (sort : string) (v : value) (l : list (value * record)) :
  Forall (λ p, p.2 !! sort = Some p.1) l →
  filter (λ d : record, d !! sort = Some v) l.*2 = (filter (λ p, p.1 = v) l).*2.
Proof.
  induction 1 as [|p l Hp _ IH]; [done|].
  rewrite fmap_cons, !filter_cons, IH, Hp.
  repeat case_decide; rewrite ?fmap_cons; congruence.
Qed.

(** What [sorted(data, key=lambda x: x[sort], reverse=True)] returns: a
    rearrangement of [data], descending by the field, in which the records
    of one field value keep their input order. *)
Lemma sorted_reverse_spec (data : list record) (sort : string) S :
  sorted_reverse data sort = Ok S →
  S ≡ₚ data ∧
  Forall (λ d, is_Some (d !! sort)) S ∧
  StronglySorted (λ a b, rank_geb sort a b = true) S ∧
  ∀ v, filter (λ d : record, d !! sort = Some v) S
       = filter (λ d : record, d !! sort = Some v) data.
Proof.
  unfold sorted_reverse.
  destruct (decorate sort data) as [dec|] eqn:Hd; simpl; try done.
  destruct (sort_desc dec) as [s|] eqn:Hs; simpl; try done.
  intros [= <-]. apply decorate_inv in Hd as [<- HF].
  pose proof (sort_desc_perm _ _ Hs) as Hp.
  assert (Forall (λ p : value * record, p.2 !! sort = Some p.1) s) as HF'
    by by rewrite Hp.
  split; [by rewrite Hp|]. split; [|split].
  - rewrite Forall_fmap. eapply Forall_impl; [exact HF'|]. simpl. eauto.
  - apply sorted_snd; eauto using sort_desc_sorted.
  - intros v. rewrite !filter_snd by done. f_equal.
    by apply sort_desc_stable.
Qed.

Lemma sorted_reverse_ok (data : list record) (sort : string) (k : nat) :
  Forall (λ d, ∃ v, d !! sort = Some v ∧ kind v = k) data →
  ∃ S, sorted_reverse data sort = Ok S.
Proof.
  intros (dec & Hd & HF)%decorate_ok. unfold sorted_reverse.
  rewrite Hd. simpl. destruct (sort_desc_ok k dec HF) as [s ->]. simpl. eauto.
Qed.

(** The loop keeps, in order, the first record of every key value not seen
    before. *)
Lemma aggregate_loop_spec (field : string) (ds : list record)
    (x : gset value) (rv out : list record) :
  aggregate_loop field ds x rv = Ok out →
  ∃ out', out = rv ++ out' ∧
    sublist out' ds ∧
    NoDup ((λ r : record, r !! field) <$> out') ∧
    (∀ r, r ∈ out' → ∃ v, r !! field = Some v ∧ v ∉ x) ∧
    (∀ d, d ∈ ds → ∃ v, d !! field = Some v ∧
       (v ∈ x ∨ ∃ r, r ∈ out' ∧ r !! field = Some v)) ∧
    (∀ r, r ∈ out' → ∃ s1 s2, ds = s1 ++ r :: s2 ∧
       ∀ d, d ∈ s1 → d !! field ≠ r !! field).
Proof.
  revert x rv out. induction ds as [|d ds IH]; simpl; intros x rv out.
  - intros [= <-]. exists []. rewrite app_nil_r.
    repeat split; try constructor; intros ? Hin; by apply elem_of_nil in Hin.
  - unfold getitem. destruct (d !! field) as [k|] eqn:Hk; simpl; try done.
    destruct (hashable k); simpl; try done.
    destruct (decide (k ∈ x)) as [Hin|Hnin].
    + intros (out' & -> & Hsub & Hnd & Hx & Hall & Hfirst)%IH.
      exists out'. repeat split; auto.
      * by apply sublist_cons.
      * intros d' [->|Hd']%elem_of_cons; eauto.
      * intros r Hr. destruct (Hfirst r Hr) as (s1 & s2 & -> & Hs1).
        exists (d :: s1), s2. split; [done|].
        intros d' [->|Hd']%elem_of_cons; [|by auto].
        destruct (Hx r Hr) as (v & -> & Hv). rewrite Hk. congruence.
    + intros (out' & -> & Hsub & Hnd & Hx & Hall & Hfirst)%IH.
      exists (d :: out'). rewrite <- app_assoc. repeat split; auto.
      * by apply sublist_skip.
      * rewrite fmap_cons. apply NoDup_cons. split; [|done].
        intros (r & Hr1 & Hr)%list_elem_of_fmap.
        destruct (Hx r Hr) as (v & Hv & Hnv). rewrite Hk, Hv in Hr1.
        set_solver.
      * intros r [->|Hr]%elem_of_cons; [eauto|].
        destruct (Hx r Hr) as (v & Hv & Hnv). exists v. set_solver.
      * intros d' [->|Hd']%elem_of_cons.
        { exists k. split; [done|]. right. exists d. split; [left|done]. }
        destruct (Hall d' Hd') as (v & Hv & [Hvx|(r & Hr & Hrv)]).
        -- exists v. split; [done|].
           apply elem_of_union in Hvx as [->%elem_of_singleton|]; [|by left].
           right. exists d. split; [left|done].
        -- exists v. split; [done|]. right. exists r. split; [by right|done].
      * intros r [->|Hr]%elem_of_cons.
        { exists [], ds. split; [done|]. intros ? Hin. by apply elem_of_nil in Hin. }
        destruct (Hfirst r Hr) as (s1 & s2 & -> & Hs1).
        exists (d :: s1), s2. split; [done|].
        intros d' [->|Hd']%elem_of_cons; [|by auto].
        destruct (Hx r Hr) as (v & -> & Hv). rewrite Hk. set_solver.
Qed.

Lemma aggregate_loop_ok (field : string) (ds : list record)
    (x : gset value) (rv : list record) :
  Forall (λ d, ∃ v, d !! field = Some v ∧ hashable v = Ok tt) ds →
  ∃ out, aggregate_loop field ds x rv = Ok out.
Proof.
  intros HF. revert x rv.
  induction HF as [|d ds (v & Hv & Hh) _ IH]; simpl; intros x rv; [eauto|].
  unfold getitem. rewrite Hv. simpl. rewrite Hh. simpl.
  case_decide; apply IH.
Qed.

Lemma filter_decompose {A} (P : A → Prop) `{!∀ x, Decision (P x)}
    (l a b : list A) (x : A) :
  filter P l = a ++ x :: b →
  ∃ l1 l2, l = l1 ++ x :: l2 ∧ filter P l1 = a ∧ filter P l2 = b.
Proof.
  revert a. induction l as [|y l IH]; intros a.
  - rewrite filter_nil. by destruct a.
  - rewrite filter_cons. case_decide as Hy.
    + destruct a as [|y' a]; simpl.
      * intros [= -> <-]. by exists [], l.
      * intros [= <- (l1 & l2 & -> & <- & <-)%IH].
        exists (y :: l1), l2. by rewrite filter_cons_True.
    + intros (l1 & l2 & -> & <- & <-)%IH.
      exists (y :: l1), l2. by rewrite filter_cons_False.
Qed.

Lemma sublist_strongly_sorted {A} (R : A → A → Prop) (l1 l2 : list A) :
  sublist l1 l2 → StronglySorted R l2 → StronglySorted R l1.
Proof.
  induction 1 as [|x l1 l2 Hsub IH|x l1 l2 Hsub IH];
    intros Hs; [done| |]; apply StronglySorted_cons in Hs as [Hx Hs].
  - apply StronglySorted_cons. split; [|by apply IH].
    rewrite Forall_forall in *. eauto using elem_of_sublist.
  - by apply IH.
Qed.

Lemma sublist_filter_mono {A} (P : A → Prop) `{!∀ x, Decision (P x)}
    (l1 l2 : list A) :
  sublist l1 l2 → sublist (filter P l1) (filter P l2).
Proof.
  induction 1 as [|x l1 l2 Hsub IH|x l1 l2 Hsub IH]; [done| |];
    rewrite ?filter_cons; repeat case_decide;
    auto using sublist_skip, sublist_cons.
Qed.

End AggregateFacts.

(** ** Strings: [split] and [join] *)

Module StringFacts.
Import Py PyStr Spec.

Lemma append_nil_l (s : string) : "" +:+ s = s.
Proof. reflexivity. Qed.

Lemma append_cons (a : ascii) (s t : string) :
  String a s +:+ t = String a (s +:+ t).
Proof. reflexivity. Qed.

Lemma append_assoc (s t u : string) : (s +:+ t) +:+ u = s +:+ (t +:+ u).
Proof.
  induction s as [|a s IH]; [done|]. by rewrite !append_cons, IH.
Qed.

Lemma join_cons_cons (sep x y : string) (l : list string) :
  join sep (x :: y :: l) = x +:+ sep +:+ join sep (y :: l).
Proof. reflexivity. Qed.

Lemma split_cons (c : ascii) (s : string) : ∃ h t, split c s = h :: t.
Proof.
  induction s as [|a s (h & t & IH)]; simpl; [eauto|].
  case_decide; [eauto|]. rewrite IH. eauto.
Qed.

Lemma join_split (c : ascii) (s : string) :
  join (String c "") (split c s) = s.
Proof.
  induction s as [|a s IH]; simpl; [done|].
  destruct (split_cons c s) as (h & t & Hs). rewrite Hs in *.
  case_decide as Ha.
  - subst a. by rewrite join_cons_cons, IH.
  - destruct t as [|y t]; simpl in *; [by rewrite IH|].
    by rewrite append_cons, IH.
Qed.

Lemma join_app (sep : string) (l1 l2 : list string) :
  l1 ≠ [] → l2 ≠ [] →
  join sep (l1 ++ l2) = join sep l1 +:+ sep +:+ join sep l2.
Proof.
  intros H1 H2. induction l1 as [|x [|y l1] IH]; [done| |].
  - destruct l2; [done|]. reflexivity.
  - change ((x :: y :: l1) ++ l2) with (x :: y :: (l1 ++ l2)).
    rewrite !join_cons_cons. change (y :: l1 ++ l2) with ((y :: l1) ++ l2).
    rewrite IH by done. by rewrite !append_assoc.
Qed.

(** Dropping leading labels leaves the domain itself or a label-aligned
    suffix of it. *)
Lemma label_suffix_drop (s : string) (k : nat) :
  (k < length (split "." s))%nat →
  label_suffix (join "." (drop k (split "." s))) s.
Proof.
  intros Hk. destruct k as [|k]; [left; by rewrite drop_0, join_split|].
  right. exists (join "." (take (S k) (split "." s))).
  rewrite <- join_app.
  - by rewrite take_drop, join_split.
  - destruct (split "." s); simpl in *; [lia|done].
  - intros Hd. apply (f_equal length) in Hd. rewrite length_drop in Hd.
    simpl in Hd. lia.
Qed.

Lemma split_no_sep (c : ascii) (s : string) :
  contains_char c s = false → split c s = [s].
Proof.
  induction s as [|a s IH]; simpl; [done|].
  case_decide; [done|]. intros Hs. by rewrite IH.
Qed.

Lemma split_app_sep (c : ascii) (s t : string) :
  contains_char c s = false →
  split c (s +:+ String c t) = s :: split c t.
Proof.
  induction s as [|a s IH]; intros Hs.
  - rewrite append_nil_l. simpl. by rewrite decide_True.
  - simpl in Hs. case_decide; [done|]. rewrite append_cons. simpl.
    rewrite decide_False by done. by rewrite IH.
Qed.

End StringFacts.

(** ** [Fqdn]: the suffix matcher and the filter *)

Module FqdnFacts.
Import Py PyStr Feed FeedFqdn Spec.

(** The loop looks at the suffix without its first [k] labels only while
    [2 * k] is below the number of labels (counted from position [i]). *)
Lemma match_loop_spec (wl : state) (i : nat) (bits : list string) :
  match_loop wl i bits = true ↔
  ∃ k : nat, (i + 2 * k < length bits)%nat ∧ VStr (join "." (drop k bits)) ∈ wl.
Proof.
  revert i. induction bits as [|b bits IH]; intros i.
  - simpl. split; [done|]. intros (k & Hk & _). lia.
  - cbn [match_loop]. destruct (Nat.ltb_spec i (length (b :: bits))) as [Hi|Hi].
    + case_decide as Hin.
      * split; [|done]. intros _. exists 0%nat. split; [lia|done].
      * rewrite IH. split.
        -- intros (k & Hk & Hm). exists (S k). simpl in *. split; [lia|done].
        -- intros ([|k] & Hk & Hm); [done|].
           exists k. simpl in *. split; [lia|done].
    + split; [done|]. intros (k & Hk & _). lia.
Qed.

Lemma match_loop_mono (wl wl' : state) (i : nat) (bits : list string) :
  wl ⊆ wl' → match_loop wl i bits = true → match_loop wl' i bits = true.
Proof.
  intros Hsub. rewrite !match_loop_spec. intros (k & Hk & Hm).
  exists k. split; [done|]. by apply Hsub.
Qed.

Lemma match_whitelist_mono (wl wl' : state) (o : value) :
  wl ⊆ wl' → match_whitelist wl o = Ok true → match_whitelist wl' o = Ok true.
Proof.
  intros Hsub. destruct o; simpl; try done.
  intros [= H]. f_equal. eauto using match_loop_mono.
Qed.

(** A match is always on an element of the set that is, character for
    character, the candidate or a label-aligned suffix of it. *)
Lemma match_whitelist_sound (wl : state) (s : string) :
  match_whitelist wl (VStr s) = Ok true →
  ∃ w, VStr w ∈ wl ∧ label_suffix w s.
Proof.
  simpl. intros [= (k & Hk & Hm)%match_loop_spec].
  eexists. split; [exact Hm|]. apply StringFacts.label_suffix_drop. lia.
Qed.

Lemma fqdn_excluded_mono (wl wl' : state) (x : record) :
  wl ⊆ wl' → fqdn_excluded wl x = Ok true → fqdn_excluded wl' x = Ok true.
Proof.
  unfold fqdn_excluded. destruct (getitem x "observable"); simpl; [|done].
  apply match_whitelist_mono.
Qed.

Lemma fqdn_excluded_defined (wl wl' : state) (x : record) (b : bool) :
  fqdn_excluded wl x = Ok b → ∃ b', fqdn_excluded wl' x = Ok b'.
Proof.
  unfold fqdn_excluded. destruct (getitem x "observable") as [[]|]; simpl;
    try done; eauto.
Qed.

Lemma fqdn_filter_loop_spec (wl : state) (data rv out : list record) :
  filter_loop wl data rv = Ok out →
  Forall (λ x, ∃ b, fqdn_excluded wl x = Ok b) data ∧
  out = rv ++ filter (λ x, fqdn_excluded wl x = Ok false) data.
Proof.
  revert rv out. induction data as [|x data IH]; simpl; intros rv out.
  - intros [= <-]. by rewrite app_nil_r.
  - rewrite filter_cons.
    destruct (getitem x "observable") as [o|] eqn:Ho; simpl; [|done].
    destruct (match_whitelist wl o) as [[]|] eqn:Hm; simpl; [| |done].
    + assert (fqdn_excluded wl x = Ok true) as He
        by (unfold fqdn_excluded; by rewrite Ho).
      intros [HF ->]%IH. rewrite decide_False by by rewrite He.
      split; [|done]. constructor; eauto.
    + assert (fqdn_excluded wl x = Ok false) as He
        by (unfold fqdn_excluded; by rewrite Ho).
      intros [HF ->]%IH. rewrite decide_True by done.
      split; [|by rewrite <- app_assoc]. constructor; eauto.
Qed.

Lemma fqdn_filter_loop_ok (wl : state) (data rv : list record) :
  Forall (λ x, ∃ b, fqdn_excluded wl x = Ok b) data →
  ∃ out, filter_loop wl data rv = Ok out.
Proof.
  intros HF. revert rv. induction HF as [|x data [b Hb] _ IH]; simpl;
    intros rv; [eauto|].
  unfold fqdn_excluded in Hb.
  destruct (getitem x "observable") as [o|]; simpl in *; [|done].
  rewrite Hb. simpl. destruct b; apply IH.
Qed.

Lemma fqdn_filter_loop_raise (wl : state) (data rv : list record) (x : record) :
  x ∈ data → x !! "observable" = None →
  ∃ e, filter_loop wl data rv = Raise e.
Proof.
  intros Hx Hnone. revert rv.
  induction data as [|y data IH]; intros rv; [by apply elem_of_nil in Hx|].
  simpl. unfold getitem.
  apply elem_of_cons in Hx as [<-|Hx]; [rewrite Hnone; simpl; eauto|].
  destruct (y !! "observable") as [o|]; simpl; [|eauto].
  destruct (match_whitelist wl o) as [[]|]; simpl; eauto.
Qed.

(** The set after the additions: the old elements and the added ones. *)
Lemma add_all_spec (wl wl' : state) (whitelist : list obj) (r : res unit) :
  add_all wl whitelist = (r, wl') →
  wl ⊆ wl' ∧
  (∀ v, v ∈ wl' → v ∈ wl ∨ OVal v ∈ whitelist) ∧
  (r = Ok tt → ∀ v, OVal v ∈ whitelist → v ∈ wl').
Proof.
  revert wl. induction whitelist as [|[v|d] rest IH]; simpl; intros wl.
  - intros [= <- <-]. split; [done|]. split; [auto|].
    intros _ v Hv. by apply elem_of_nil in Hv.
  - destruct (hashable v).
    + intros (Hsub & Hfrom & Hall)%IH. split; [|split].
      * intros u Hu. apply Hsub, elem_of_union. by right.
      * intros u Hu. destruct (Hfrom u Hu) as [Hin|Hin]; [|right; by right].
        apply elem_of_union in Hin as [->%elem_of_singleton|]; [|by left].
        right. left.
      * intros Hr u [[= ->]|Hu]%elem_of_cons; [|by apply Hall].
        apply Hsub, elem_of_union. left. by apply elem_of_singleton.
    + intros [= <- <-]. split; [done|]. split; [auto|done].
  - intros [= <- <-]. split; [done|]. split; [auto|done].
Qed.

Lemma add_all_ok (wl : state) (ws : list string) :
  ∃ wl', add_all wl (OVal ∘ VStr <$> ws) = (Ok tt, wl').
Proof.
  revert wl. induction ws as [|w ws IH]; simpl; intros wl; [eauto|]. apply IH.
Qed.

Lemma init_spec (w : string) : VStr w ∈ init ↔ w ∈ PERM_WHITELIST.
Proof.
  unfold init. generalize PERM_WHITELIST. intros l.
  assert (∀ acc : state, VStr w ∈ fold_left (λ wl w, {[VStr w]} ∪ wl) l acc
                         ↔ w ∈ l ∨ VStr w ∈ acc) as H.
  { induction l as [|a l IH]; intros acc; simpl.
    - rewrite elem_of_nil. tauto.
    - rewrite IH, elem_of_cons, elem_of_union, elem_of_singleton.
      split; [intros [?|[[= ->]|?]]|intros [[->|?]|?]]; auto. }
  rewrite H, elem_of_empty. tauto.
Qed.

End FqdnFacts.

(** ** Keys of the prefix table *)

Module KeyFacts.
Import Py PyStr.

Lemma cut_no_sep (c : ascii) (s : string) :
  contains_char c s = false → Pytricia.cut c s = (s, None).
Proof.
  induction s as [|a s IH]; simpl; [done|].
  case_decide; [done|]. intros Hs. by rewrite (IH Hs).
Qed.

Lemma cut_app_sep (c : ascii) (s t : string) :
  contains_char c s = false →
  Pytricia.cut c (s +:+ String c t) = (s, Some t).
Proof.
  induction s as [|a s IH]; intros Hs.
  - rewrite StringFacts.append_nil_l. simpl. by rewrite decide_True.
  - simpl in Hs. case_decide; [done|]. rewrite StringFacts.append_cons.
    simpl. rewrite decide_False by done. by rewrite (IH Hs).
Qed.

Lemma cut_sep (c : ascii) (s : string) :
  contains_char c s = true → ∃ a l, Pytricia.cut c s = (a, Some l).
Proof.
  induction s as [|a s IH]; simpl; [done|].
  case_decide; [eauto|]. intros (a' & l & ->)%IH. simpl. eauto.
Qed.

Lemma contains_char_app_sep (c : ascii) (s t : string) :
  contains_char c (s +:+ String c t) = true.
Proof.
  induction s as [|a s IH].
  - rewrite StringFacts.append_nil_l. simpl. by rewrite decide_True.
  - rewrite StringFacts.append_cons. simpl. by case_decide.
Qed.

(** A key with a '/' is stored as it is looked up. *)
Lemma insert_prefix_slash (s : string) :
  contains_char "/" s = true →
  Pytricia.insert_prefix s = Pytricia.parse_prefix s.
Proof.
  intros (a & l & Hc)%cut_sep. unfold Pytricia.insert_prefix. by rewrite Hc.
Qed.


End KeyFacts.

(** ** [Ipv4]: the prefix table and the filter *)

Module Ipv4Facts.
Import Py PyStr Feed FeedIpv4 Spec.

Lemma sublist_filter_impl {A} (P Q : A → Prop)
    `{!∀ x, Decision (P x)} `{!∀ x, Decision (Q x)} (l : list A) :
  Forall (λ x, Q x → P x) l → sublist (filter Q l) (filter P l).
Proof.
  induction 1 as [|x l Hx _ IH]; [done|].
  rewrite !filter_cons. repeat case_decide;
    auto using sublist_skip, sublist_cons. tauto.
Qed.

Lemma contains_mono (wl wl' : Pytricia.t) (key : string) :
  wl ⊆ wl' →
  Pytricia.contains wl key = Ok true → Pytricia.contains wl' key = Ok true.
Proof.
  intros Hsub. unfold Pytricia.contains.
  destruct (Pytricia.parse_prefix key) as [q|]; [|done].
  intros [= (p & Hp & Hc)%existsb_exists]. f_equal.
  apply existsb_exists. exists p. split; [|done].
  apply list_elem_of_In, Hsub, list_elem_of_In, Hp.
Qed.

Lemma contains_defined (wl wl' : Pytricia.t) (key : string) (b : bool) :
  Pytricia.contains wl key = Ok b → ∃ b', Pytricia.contains wl' key = Ok b'.
Proof.
  unfold Pytricia.contains.
  destruct (Pytricia.parse_prefix key); [eauto|done].
Qed.

Lemma ipv4_excluded_mono (wl wl' : Pytricia.t) (y : record) :
  wl ⊆ wl' → ipv4_excluded wl y = Ok true → ipv4_excluded wl' y = Ok true.
Proof.
  intros Hsub. unfold ipv4_excluded.
  destruct (getitem y "tags") as [tags|]; simpl; [|done].
  destruct (tag_contains_whitelist tags) as [[]|]; simpl; [done| |done].
  destruct (getitem y "observable") as [o|]; simpl; [|done].
  by apply contains_mono.
Qed.

Lemma ipv4_excluded_defined (wl wl' : Pytricia.t) (y : record) (b : bool) :
  ipv4_excluded wl y = Ok b → ∃ b', ipv4_excluded wl' y = Ok b'.
Proof.
  unfold ipv4_excluded.
  destruct (getitem y "tags") as [tags|]; simpl; [|done].
  destruct (tag_contains_whitelist tags) as [[]|]; simpl; [eauto| |done].
  destruct (getitem y "observable") as [o|]; simpl; [|done].
  apply contains_defined.
Qed.

Lemma ipv4_filter_loop_spec (wl : Pytricia.t) (data rv out : list record) :
  filter_loop wl data rv = Ok out →
  Forall (λ y, ∃ b, ipv4_excluded wl y = Ok b) data ∧
  out = rv ++ filter (λ y, ipv4_excluded wl y = Ok false) data.
Proof.
  revert rv out. induction data as [|y data IH]; simpl; intros rv out.
  - intros [= <-]. by rewrite app_nil_r.
  - rewrite filter_cons.
    destruct (getitem y "tags") as [tags|] eqn:Ht; simpl; [|done].
    destruct (tag_contains_whitelist tags) as [[]|] eqn:Hw; simpl; [| |done].
    + assert (ipv4_excluded wl y = Ok true) as He.
      { unfold ipv4_excluded. rewrite Ht. simpl. by rewrite Hw. }
      intros [HF ->]%IH. rewrite decide_False by by rewrite He.
      split; [constructor; eauto|done].
    + destruct (getitem y "observable") as [o|] eqn:Ho; simpl; [|done].
      destruct (Pytricia.contains wl (str o)) as [[]|] eqn:Hc; simpl;
        [| |done].
      * assert (ipv4_excluded wl y = Ok true) as He.
        { unfold ipv4_excluded. rewrite Ht. simpl. rewrite Hw. simpl.
          by rewrite Ho. }
        intros [HF ->]%IH. rewrite decide_False by by rewrite He.
        split; [constructor; eauto|done].
      * assert (ipv4_excluded wl y = Ok false) as He.
        { unfold ipv4_excluded. rewrite Ht. simpl. rewrite Hw. simpl.
          by rewrite Ho. }
        intros [HF ->]%IH. rewrite decide_True by done.
        split; [constructor; eauto|by rewrite <- app_assoc].
Qed.

Lemma ipv4_filter_loop_ok (wl : Pytricia.t) (data rv : list record) :
  Forall (λ y, ∃ b, ipv4_excluded wl y = Ok b) data →
  ∃ out, filter_loop wl data rv = Ok out.
Proof.
  intros HF. revert rv. induction HF as [|y data [b Hb] _ IH]; simpl;
    intros rv; [eauto|].
  unfold ipv4_excluded in Hb.
  destruct (getitem y "tags") as [tags|]; simpl in *; [|done].
  destruct (tag_contains_whitelist tags) as [[]|]; simpl in *; try done.
  destruct (getitem y "observable") as [o|]; simpl in *; [|done].
  rewrite Hb. simpl. destruct b; apply IH.
Qed.

(** The loop raises at a record without [observable], unless the record's
    tags make it skip the record first. *)
Lemma ipv4_filter_loop_raise (wl : Pytricia.t) (data rv : list record) (y : record) :
  y ∈ data → y !! "observable" = None → ¬ tagged_whitelist y →
  ∃ e, filter_loop wl data rv = Raise e.
Proof.
  intros Hy Hnone Hnt. revert rv.
  induction data as [|z data IH]; intros rv; [by apply elem_of_nil in Hy|].
  simpl. apply elem_of_cons in Hy as [<-|Hy].
  - unfold getitem. destruct (y !! "tags") as [tags|] eqn:Ht; simpl; [|eauto].
    destruct tags as [n|t|l]; simpl; [eauto|by rewrite Hnone; simpl; eauto|].
    destruct (existsb _ l) eqn:Hex; [|by rewrite Hnone; simpl; eauto].
    destruct Hnt. exists l. split; [done|].
    apply existsb_exists in Hex as (d & Hd & ->%bool_decide_eq_true).
    by apply list_elem_of_In.
  - destruct (getitem z "tags") as [tags|]; simpl; [|eauto].
    destruct (tag_contains_whitelist tags) as [[]|]; simpl; eauto.
    destruct (getitem z "observable") as [o|]; simpl; [|eauto].
    destruct (Pytricia.contains wl (str o)) as [[]|]; simpl; eauto.
Qed.

Lemma entry_key_slash (s : string) : contains_char "/" (entry_key s) = true.
Proof.
  unfold entry_key. destruct (contains_char "/" s) eqn:Hs; [done|].
  apply KeyFacts.contains_char_app_sep.
Qed.

(** The work-around makes every inserted key one with a '/'. *)
Lemma setitem_entry_key (wl : Pytricia.t) (s : string) :
  Pytricia.setitem wl (entry_key s)
  = match Pytricia.parse_prefix (entry_key s) with
    | Some p => Ok (p :: wl)
    | None => Raise ValueError
    end.
Proof.
  unfold Pytricia.setitem.
  by rewrite (KeyFacts.insert_prefix_slash _ (entry_key_slash s)).
Qed.

Lemma perm_keys_slash :
  Forall (λ x, contains_char "/" x = true) PERM_WHITELIST.
Proof. repeat constructor. Qed.

(** The table after the insertions of the whitelist. *)
Lemma insert_whitelist_spec (wl t : Pytricia.t) (whitelist : list obj) :
  insert_whitelist wl whitelist = Ok t →
  ∀ p, p ∈ t ↔ p ∈ wl ∨ ∃ y o, y ∈ whitelist ∧
         subscript y "observable" = Ok o ∧
         Pytricia.parse_prefix (entry_key (str o)) = Some p.
Proof.
  revert wl. induction whitelist as [|y rest IH]; simpl; intros wl.
  - intros [= <-] p. split; [auto|]. intros [|(y & o & Hy & _)]; [done|].
    by apply elem_of_nil in Hy.
  - destruct (subscript y "observable") as [o|] eqn:Ho; simpl; [|done].
    rewrite setitem_entry_key.
    destruct (Pytricia.parse_prefix (entry_key (str o))) as [q|] eqn:Hq;
      simpl; [|done].
    intros Ht p. rewrite (IH _ Ht p), elem_of_cons. split.
    + intros [[->|Hp]|(y' & o' & Hy' & Ho' & Hp)]; [|by left|].
      * right. exists y, o. split; [left|done].
      * right. exists y', o'. split; [by right|done].
    + intros [Hp|(y' & o' & [->|Hy']%elem_of_cons & Ho' & Hp)]; [by auto| |].
      * left. left. congruence.
      * right. eauto.
Qed.

Lemma insert_perm_spec (wl t : Pytricia.t) (l : list string) :
  insert_perm wl l = Ok t →
  ∀ p, p ∈ t ↔ p ∈ wl ∨ ∃ x, x ∈ l ∧ Pytricia.insert_prefix x = Some p.
Proof.
  revert wl. induction l as [|x l IH]; simpl; intros wl.
  - intros [= <-] p. split; [auto|]. intros [|(x & Hx & _)]; [done|].
    by apply elem_of_nil in Hx.
  - unfold Pytricia.setitem.
    destruct (Pytricia.insert_prefix x) as [q|] eqn:Hq; simpl; [|done].
    intros Ht p. rewrite (IH _ Ht p), elem_of_cons. split.
    + intros [[->|Hp]|(x' & Hx' & Hp)]; [|by left|].
      * right. exists x. split; [left|done].
      * right. exists x'. split; [by right|done].
    + intros [Hp|(x' & [->|Hx']%elem_of_cons & Hp)]; [by auto| |].
      * left. left. congruence.
      * right. eauto.
Qed.

(** What [process] does, in one piece. *)
Lemma process_spec (data : list record) (whitelist : list obj) rv :
  process data whitelist = Ok rv →
  ∃ wl, (∀ p, p ∈ wl ↔
           (∃ x, x ∈ PERM_WHITELIST ∧ Pytricia.parse_prefix x = Some p) ∨
           (∃ y o, y ∈ whitelist ∧ subscript y "observable" = Ok o ∧
              Pytricia.parse_prefix (entry_key (str o)) = Some p)) ∧
    Forall (λ y, ∃ b, ipv4_excluded wl y = Ok b) data ∧
    rv = filter (λ y, ipv4_excluded wl y = Ok false) data.
Proof.
  unfold process.
  destruct (insert_perm Pytricia.empty PERM_WHITELIST) as [t0|] eqn:H0;
    simpl; [|done].
  destruct (insert_whitelist t0 whitelist) as [wl|] eqn:H1; simpl; [|done].
  intros [HF ->]%ipv4_filter_loop_spec. exists wl. split; [|done].
  intros p. rewrite (insert_whitelist_spec _ _ _ H1 p).
  rewrite (insert_perm_spec _ _ _ H0 p). unfold Pytricia.empty.
  rewrite elem_of_nil.
  assert ((∃ x, x ∈ PERM_WHITELIST ∧ Pytricia.insert_prefix x = Some p) ↔
          (∃ x, x ∈ PERM_WHITELIST ∧ Pytricia.parse_prefix x = Some p)) as ->;
    [|tauto].
  pose proof perm_keys_slash as Hs. rewrite Forall_forall in Hs.
  split; intros (x & Hx & Hp); exists x; (split; [done|]);
    by rewrite ?(KeyFacts.insert_prefix_slash x (Hs x Hx)) in *.
Qed.




End Ipv4Facts.

Import Py PyStr Feed Spec Samples.

(** C1. On records that all carry the key field (hashable) and the rank
    field (values of one type), [aggregate] returns a list with at most one
    record per key-field value and one for every key of the input; each
    kept record stands in the input behind only lower-ranked records of its
    key and before none of higher rank (the maximum, the earliest on ties);
    the output descends by rank, records of equal rank in input order. *)
Theorem aggregate_keeps_best_per_key
    (data : list record) (field sort : string) (k : nat) :
  Forall (λ d, ∃ v, d !! field = Some v ∧ hashable v = Ok tt) data →
  Forall (λ d, ∃ v, d !! sort = Some v ∧ kind v = k) data →
  ∃ rv, Client.aggregate data field sort = Ok rv ∧
    NoDup ((λ r : record, r !! field) <$> rv) ∧
    (∀ d, d ∈ data → ∃ r, r ∈ rv ∧ r !! field = d !! field) ∧
    (∀ r, r ∈ rv → ∃ l1 l2, data = l1 ++ r :: l2 ∧
       (∀ d, d ∈ l1 → d !! field = r !! field → rank_ltb sort d r = true) ∧
       (∀ d, d ∈ l2 → d !! field = r !! field → rank_geb sort r d = true)) ∧
    StronglySorted (λ a b, rank_geb sort a b = true) rv ∧
    (∀ v, sublist (filter (λ d : record, d !! sort = Some v) rv)
                  (filter (λ d : record, d !! sort = Some v) data)).
Proof.
  intros Hkey Hrank. unfold Client.aggregate.
  destruct (AggregateFacts.sorted_reverse_ok _ _ _ Hrank) as [S HS].
  rewrite HS. simpl.
  apply AggregateFacts.sorted_reverse_spec in HS as (Hperm & Hsome & Hsorted & Hstable).
  assert (Forall (λ d, ∃ v, d !! field = Some v ∧ hashable v = Ok tt) S) as Hkey'
    by by rewrite Hperm.
  destruct (AggregateFacts.aggregate_loop_ok field S ∅ [] Hkey') as [rv Hrv].
  exists rv. split; [done|].
  apply AggregateFacts.aggregate_loop_spec in Hrv
    as (out' & -> & Hsub & Hnd & Hx & Hall & Hfirst).
  simpl. split; [done|]. split; [|split; [|split]].
  - intros d Hd. rewrite <- Hperm in Hd.
    destruct (Hall d Hd) as (v & Hv & [Hin|(r & Hr & Hrv)]); [set_solver|].
    exists r. split; [done|congruence].
  - intros r Hr. destruct (Hfirst r Hr) as (s1 & s2 & -> & Hs1).
    assert (is_Some (r !! sort)) as [v Hv].
    { rewrite Forall_forall in Hsome. apply Hsome. set_solver. }
    pose proof (Hstable v) as Hst.
    rewrite filter_app, filter_cons_True in Hst by done.
    symmetry in Hst.
    apply AggregateFacts.filter_decompose in Hst as (l1 & l2 & -> & Hl1 & Hl2).
    apply StronglySorted_app in Hsorted as (_ & _ & Hs2).
    apply StronglySorted_cons in Hs2 as [Hs2 _]. rewrite Forall_forall in Hs2.
    assert (∀ d, d ∈ l1 ++ r :: l2 → d !! field = r !! field →
                 d = r ∨ d ∈ s2) as Hwhere.
    { intros d Hd Hdk. rewrite <- Hperm in Hd.
      apply elem_of_app in Hd as [Hd|Hd]; [by destruct (Hs1 d Hd)|].
      apply elem_of_cons in Hd. tauto. }
    assert (∀ d, d ∈ l1 → d !! field = r !! field → d !! sort ≠ Some v) as Hl1v.
    { intros d Hd Hdk Hdv.
      assert (d ∈ filter (λ d : record, d !! sort = Some v) l1) as Hdf
        by by apply list_elem_of_filter.
      rewrite Hl1 in Hdf. apply list_elem_of_filter in Hdf as [_ Hds1].
      by destruct (Hs1 d Hds1). }
    assert (rank_geb sort r r = true) as Hrr.
    { unfold rank_geb, rank_cmp. by rewrite Hv, OrderFacts.py_compare_refl. }
    exists l1, l2. split; [done|]. split.
    + intros d Hd Hdk.
      assert (rank_geb sort r d = true) as Hge.
      { destruct (Hwhere d) as [->|Hd2]; [set_solver|done|done|by apply Hs2]. }
      specialize (Hl1v d Hd Hdk). revert Hge.
      unfold rank_geb, rank_ltb, rank_cmp. rewrite Hv.
      destruct (d !! sort) as [v'|]; [|done].
      rewrite (OrderFacts.py_compare_antisym v' v).
      destruct (py_compare v v') as [[]|] eqn:Hc; simpl; try done.
      apply OrderFacts.py_compare_eq in Hc. congruence.
    + intros d Hd Hdk.
      destruct (Hwhere d) as [->|Hd2]; [set_solver|done|done|by apply Hs2].
  - eauto using AggregateFacts.sublist_strongly_sorted.
  - intros v. rewrite <- Hstable.
    by apply AggregateFacts.sublist_filter_mono.
Qed.

Lemma aggregate_keeps_best_per_key_witness :
  ∃ rv, Client.aggregate scenario "observable" "confidence" = Ok rv ∧
        NoDup ((λ r : record, r !! "observable") <$> rv) ∧
        StronglySorted (λ a b, rank_geb "confidence" a b = true) rv.
Proof.
  destruct (aggregate_keeps_best_per_key scenario "observable" "confidence" 0)
    as (rv & Hrv & Hnd & _ & _ & Hs & _).
  - repeat (apply Forall_cons; split); try apply Forall_nil;
      eexists; split; reflexivity.
  - repeat (apply Forall_cons; split); try apply Forall_nil;
      eexists; split; reflexivity.
  - exists rv. auto.
Defined.

(** The sample scenario: the duplicate collapses to the higher confidence
    and the feed drops the private address. *)
Example scenario_feed :
  (Client.aggregate_default scenario ≫= λ ret, FeedIpv4.process ret [])
  = Ok [mk "1.2.3.4" 85 []].
Proof. reflexivity. Qed.

(** ** Self-tagged records *)

(** [Ipv4.process] never emits a record whose tags hold 'whitelist'. *)
Lemma ipv4_drops_self_tagged (data : list record) (whitelist : list obj) rv :
  FeedIpv4.process data whitelist = Ok rv →
  ∀ r, r ∈ rv → ¬ tagged_whitelist r.
Proof.
  intros (wl & _ & _ & ->)%Ipv4Facts.process_spec r
    [He _]%list_elem_of_filter (l & Ht & Hl).
  unfold ipv4_excluded, getitem in He. rewrite Ht in He. simpl in He.
  assert (existsb (λ d, bool_decide (d = "whitelist")) l = true) as Hex.
  { apply existsb_exists. exists "whitelist".
    split; [by apply list_elem_of_In|by apply bool_decide_eq_true]. }
  rewrite Hex in He. done.
Qed.

(** C2. [Fqdn.process] has no tag check: a record tagged 'whitelist' whose
    observable is not on the whitelist is emitted. *)
Theorem fqdn_keeps_self_tagged_record :
  tagged_whitelist (mk "example.com" 85 ["whitelist"]) ∧
  (FeedFqdn.process FeedFqdn.init [mk "example.com" 85 ["whitelist"]] []).1
  = Ok [mk "example.com" 85 ["whitelist"]].
Proof.
  split.
  - exists ["whitelist"]. split; [reflexivity|left].
  - reflexivity.
Qed.

(** ** The permanent whitelist *)

(** [Ipv4.process] emits no record whose observable lies in a block of the
    permanent list, whatever the dynamic whitelist. *)
Lemma ipv4_permanent_in_effect (data : list record) (whitelist : list obj) rv :
  FeedIpv4.process data whitelist = Ok rv →
  ∀ r o x p q, r ∈ rv → r !! "observable" = Some o →
    x ∈ FeedIpv4.PERM_WHITELIST → Pytricia.parse_prefix x = Some p →
    Pytricia.parse_prefix (str o) = Some q → Pytricia.covers p q = false.
Proof.
  intros (wl & Hwl & _ & ->)%Ipv4Facts.process_spec r o x p q
    [He _]%list_elem_of_filter Ho Hx Hp Hq.
  assert (p ∈ wl) as Hin by (apply Hwl; eauto).
  unfold ipv4_excluded, getitem in He. rewrite Ho in He.
  destruct (r !! "tags") as [tags|]; simpl in He; [|done].
  destruct (tag_contains_whitelist tags) as [[]|]; simpl in He; try done.
  unfold Pytricia.contains in He. rewrite Hq in He.
  injection He as He. destruct (Pytricia.covers p q) eqn:Hc; [|done].
  assert (existsb (λ p, Pytricia.covers p q) wl = true) as Hex; [|congruence].
  apply existsb_exists. exists p. split; [by apply list_elem_of_In|done].
Qed.

(** [Fqdn.process] on an instance whose set holds the permanent list emits
    no record that the matcher matches against the permanent list, and the
    set still holds the permanent list afterwards. *)
Lemma fqdn_permanent_in_effect (self self' : FeedFqdn.state)
    (data : list record) (whitelist : list obj) (r : res (list record)) :
  FeedFqdn.init ⊆ self →
  FeedFqdn.process self data whitelist = (r, self') →
  FeedFqdn.init ⊆ self' ∧
  ∀ rv x o, r = Ok rv → x ∈ rv → x !! "observable" = Some o →
    FeedFqdn.match_whitelist FeedFqdn.init o ≠ Ok true.
Proof.
  intros Hinit. unfold FeedFqdn.process.
  destruct (FeedFqdn.add_all self whitelist) as [[[]|e] wl] eqn:Ha;
    intros [= <- <-]; apply FqdnFacts.add_all_spec in Ha as (Hsub & _);
    (split; [by etrans|]); [|done].
  intros rv x o [_ ->]%FqdnFacts.fqdn_filter_loop_spec
    [He _]%list_elem_of_filter Ho Hm.
  apply (FqdnFacts.match_whitelist_mono _ wl) in Hm; [|by etrans].
  unfold fqdn_excluded, getitem in He. rewrite Ho in He. simpl in He.
  congruence.
Qed.

(** C3. With an empty dynamic whitelist, [Fqdn.process] emits a record
    whose observable is a subdomain, two labels down, of the permanent
    entry google.com. *)
Theorem fqdn_keeps_deep_subdomain_of_permanent_entry :
  "google.com" ∈ FeedFqdn.PERM_WHITELIST ∧
  label_suffix "google.com" "a.b.google.com" ∧
  (FeedFqdn.process FeedFqdn.init [mk "a.b.google.com" 85 []] []).1
  = Ok [mk "a.b.google.com" 85 []].
Proof.
  split; [left|]. split.
  - right. by exists "a.b".
  - reflexivity.
Qed.

(** ** The suffix matcher *)

(** C4. With google.com in the set, the matcher reports mail.google.com
    and evil.google.com and rejects notgoogle.com, but it also rejects
    a.b.google.com, of which google.com is a label-aligned suffix: the loop
    stops before it reaches that suffix. *)
Theorem match_whitelist_misses_deep_subdomain :
  let wl : FeedFqdn.state := {[ VStr "google.com" ]} in
  FeedFqdn.match_whitelist wl (VStr "mail.google.com") = Ok true ∧
  FeedFqdn.match_whitelist wl (VStr "evil.google.com") = Ok true ∧
  FeedFqdn.match_whitelist wl (VStr "notgoogle.com") = Ok false ∧
  label_suffix "google.com" "a.b.google.com" ∧
  FeedFqdn.match_whitelist wl (VStr "a.b.google.com") = Ok false.
Proof.
  repeat split; try (vm_compute; reflexivity).
  right. by exists "a.b".
Qed.

(** C6, as stated, fails: folding the case of the candidate changes the
    answer. *)
Lemma fqdn_match_depends_on_case :
  ¬ (∀ (wl : FeedFqdn.state) (d d' : string), lower d = lower d' →
       FeedFqdn.match_whitelist wl (VStr d)
       = FeedFqdn.match_whitelist wl (VStr d')).
Proof.
  intros H.
  specialize (H {[ VStr "google.com" ]} "MAIL.GOOGLE.COM" "mail.google.com"
                eq_refl).
  vm_compute in H. discriminate H.
Qed.

(** C6, amended. The matcher compares character for character: it reports
    a match only when the candidate itself or a label-aligned suffix of it
    is, letter case included, an element of the set. *)
Theorem fqdn_match_compares_exactly (wl : FeedFqdn.state) (s : string) :
  FeedFqdn.match_whitelist wl (VStr s) = Ok true →
  ∃ w, VStr w ∈ wl ∧ label_suffix w s.
Proof. apply FqdnFacts.match_whitelist_sound. Qed.

Lemma fqdn_match_compares_exactly_witness :
  ∃ w, VStr w ∈ ({[ VStr "google.com" ]} : FeedFqdn.state) ∧
       label_suffix w "mail.google.com".
Proof.
  apply (fqdn_match_compares_exactly {[ VStr "google.com" ]} "mail.google.com").
  vm_compute. reflexivity.
Defined.

(** The containment example of the specification: with 10.0.0.0/8
    inserted, 10.1.2.3 is contained and 11.0.0.1 is not. *)
Example cidr_containment :
  (Pytricia.setitem Pytricia.empty "10.0.0.0/8" ≫= λ wl,
     Pytricia.contains wl "10.1.2.3") = Ok true ∧
  (Pytricia.setitem Pytricia.empty "10.0.0.0/8" ≫= λ wl,
     Pytricia.contains wl "11.0.0.1") = Ok false.
Proof. split; reflexivity. Qed.

(** ** Monotonicity in the dynamic whitelist *)

(** C5. With a larger dynamic whitelist the feed only loses records: the
    feed for the larger whitelist is a sublist of the feed for the smaller
    one, so a record left out before is left out again; for [Ipv4] and for
    [Fqdn] (two calls on an instance in the same state). *)
Theorem whitelist_exclusion_monotone :
  (∀ (data : list record) (W W' : list obj) rv rv',
     W ⊆ W' →
     FeedIpv4.process data W = Ok rv → FeedIpv4.process data W' = Ok rv' →
     sublist rv' rv ∧ ∀ r, r ∈ data → r ∉ rv → r ∉ rv') ∧
  (∀ (self : FeedFqdn.state) (data : list record) (W W' : list obj)
     rv rv' s s',
     W ⊆ W' →
     FeedFqdn.process self data W = (Ok rv, s) →
     FeedFqdn.process self data W' = (Ok rv', s') →
     sublist rv' rv ∧ ∀ r, r ∈ data → r ∉ rv → r ∉ rv').
Proof.
  split.
  - intros data W W' rv rv' Hsub
      (wl & Hwl & HF & ->)%Ipv4Facts.process_spec
      (wl' & Hwl' & HF' & ->)%Ipv4Facts.process_spec.
    assert (wl ⊆ wl') as Hwlsub.
    { intros p [Hp|(y & o & Hy & Hp)]%Hwl; apply Hwl'; [by left|].
      right. exists y, o. split; [by apply Hsub|done]. }
    assert (sublist (filter (λ y, ipv4_excluded wl' y = Ok false) data)
                    (filter (λ y, ipv4_excluded wl y = Ok false) data)) as Hs.
    { apply Ipv4Facts.sublist_filter_impl.
      eapply Forall_impl; [exact HF|]. intros y [[] Hb] Hb'; [|done].
      apply (Ipv4Facts.ipv4_excluded_mono wl wl') in Hb; [congruence|done]. }
    split; [done|]. intros r _ Hn Hin. apply Hn.
    eapply elem_of_sublist; eauto.
  - intros self data W W' rv rv' s s' Hsub. unfold FeedFqdn.process.
    destruct (FeedFqdn.add_all self W) as [[[]|] wl] eqn:Ha; [|done].
    destruct (FeedFqdn.add_all self W') as [[[]|] wl'] eqn:Ha'; [|done].
    intros [= [HF ->]%FqdnFacts.fqdn_filter_loop_spec <-]
           [= [HF' ->]%FqdnFacts.fqdn_filter_loop_spec <-].
    apply FqdnFacts.add_all_spec in Ha as (_ & Hfrom & _).
    apply FqdnFacts.add_all_spec in Ha' as (Hself & _ & Hall).
    assert (wl ⊆ wl') as Hwlsub.
    { intros v [Hv|Hv]%Hfrom; [by apply Hself|].
      apply Hall; [done|by apply Hsub]. }
    assert (sublist (filter (λ x, fqdn_excluded wl' x = Ok false) data)
                    (filter (λ x, fqdn_excluded wl x = Ok false) data)) as Hs.
    { apply Ipv4Facts.sublist_filter_impl.
      eapply Forall_impl; [exact HF|]. intros x [[] Hb] Hb'; [|done].
      apply (FqdnFacts.fqdn_excluded_mono wl wl') in Hb; [congruence|done]. }
    split; [done|]. intros r _ Hn Hin. apply Hn.
    eapply elem_of_sublist; eauto.
Qed.

Lemma whitelist_exclusion_monotone_witness :
  sublist [mk "9.9.9.9" 70 []] [mk "1.2.3.4" 85 []; mk "9.9.9.9" 70 []] ∧
  sublist [mk "b.org" 1 []] [mk "a.example.com" 2 []; mk "b.org" 1 []].
Proof.
  destruct whitelist_exclusion_monotone as [H4 Hf]. split.
  - refine (proj1 (H4 [mk "1.2.3.4" 85 []; mk "8.8.8.8" 90 []; mk "9.9.9.9" 70 []]
                      [ODict (mk "8.8.8.8" 0 [])]
                      [ODict (mk "1.2.3.4" 0 []); ODict (mk "8.8.8.8" 0 [])]
                      _ _ _ _ _)).
    + intros y Hy. by right.
    + reflexivity.
    + reflexivity.
  - refine (proj1 (Hf FeedFqdn.init
                      [mk "a.example.com" 2 []; mk "b.org" 1 []]
                      [] [OVal (VStr "example.com")] _ _ _ _ _ _ _)).
    + intros y Hy. by apply elem_of_nil in Hy.
    + reflexivity.
    + reflexivity.
Defined.

(** ** Unsupported observable types *)

Lemma factory_unsupported (otype : string) :
  otype ∉ ["ipv4"; "ipv6"; "fqdn"; "url"] → factory otype = None.
Proof.
  rewrite !not_elem_of_cons. intros (H4 & H6 & Hf & Hu & _).
  unfold factory, plugins.
  by rewrite !lookup_insert_ne, lookup_empty by done.
Qed.

(** C8, as stated, fails: for the type 'email' the records are aggregated
    before the branch fails, and the failure is the [TypeError] of calling
    [None]. *)
Lemma unsupported_otype_is_aggregated_first :
  ¬ (∀ ip6 url (otype : string) (ret wl : list record),
       otype ∉ ["ipv4"; "ipv6"; "fqdn"; "url"] →
       (Main.feed ip6 url otype ret wl).1 = []).
Proof.
  intros H.
  specialize (H (λ _ _, Ok []) (λ _ _, Ok []) "email" [] []).
  assert ("email" ∉ ["ipv4"; "ipv6"; "fqdn"; "url"]) as Hn.
  { rewrite !not_elem_of_cons. repeat split; try done. apply not_elem_of_nil. }
  specialize (H Hn). discriminate H.
Qed.

(** C8, amended. For a type outside the four, [factory] returns [None];
    the feed branch aggregates, runs no plugin, and ends in an exception:
    no feed is produced. *)
Theorem unsupported_otype_yields_no_feed
    (ip6 url : list record → list obj → res (list record))
    (otype : string) (ret wl : list record) :
  otype ∉ ["ipv4"; "ipv6"; "fqdn"; "url"] →
  factory otype = None ∧
  ∃ e, Main.feed ip6 url otype ret wl = ([Main.EvAggregate], Raise e).
Proof.
  intros Hf%factory_unsupported. split; [done|].
  unfold Main.feed. rewrite Hf.
  destruct (Client.aggregate_default ret); eauto.
Qed.

Lemma unsupported_otype_yields_no_feed_witness :
  factory "email" = None ∧
  ∃ e, Main.feed (λ _ _, Ok []) (λ _ _, Ok []) "email" scenario []
       = ([Main.EvAggregate], Raise e).
Proof.
  apply (unsupported_otype_yields_no_feed (λ _ _, Ok []) (λ _ _, Ok [])
           "email" scenario []).
  rewrite !not_elem_of_cons. repeat split; try done. apply not_elem_of_nil.
Defined.

(** ** Records without an observable *)

(** C9, as stated, fails: [Ipv4.process] skips a record that has no
    [observable] when its tags hold 'whitelist', and returns the feed of
    the other records. *)
Lemma ipv4_skips_tagged_record_without_observable :
  tagged_only !! "observable" = None ∧
  FeedIpv4.process [tagged_only; mk "1.2.3.4" 85 []] []
  = Ok [mk "1.2.3.4" 85 []].
Proof. split; reflexivity. Qed.

(** C9, amended. When a record of the input has no [observable],
    [Fqdn.process] returns no feed but raises, and so does [Ipv4.process]
    unless the record's tags hold 'whitelist'; on that record alone a fresh
    [Fqdn] raises the [KeyError] of the missing key. *)
Theorem record_without_observable_raises (data : list record) (x : record) :
  x ∈ data → x !! "observable" = None →
  (∀ self W, ∃ e, (FeedFqdn.process self data W).1 = Raise e) ∧
  (¬ tagged_whitelist x → ∀ W, ∃ e, FeedIpv4.process data W = Raise e) ∧
  (FeedFqdn.process FeedFqdn.init [x] []).1 = Raise (KeyError "observable").
Proof.
  intros Hx Hnone. split; [|split].
  - intros self W. unfold FeedFqdn.process.
    destruct (FeedFqdn.add_all self W) as [[[]|e] wl]; simpl; [|eauto].
    eapply FqdnFacts.fqdn_filter_loop_raise; eauto.
  - intros Hnt W. unfold FeedIpv4.process.
    destruct (FeedIpv4.insert_perm _ _) as [t0|]; simpl; [|eauto].
    destruct (FeedIpv4.insert_whitelist t0 W) as [wl|]; simpl; [|eauto].
    eapply Ipv4Facts.ipv4_filter_loop_raise; eauto.
  - unfold FeedFqdn.process. simpl. unfold getitem. by rewrite Hnone.
Qed.

Lemma record_without_observable_raises_witness :
  (∀ self W, ∃ e,
     (FeedFqdn.process self [mk "a.org" 1 []; ∅] W).1 = Raise e) ∧
  (¬ tagged_whitelist ∅ →
   ∀ W, ∃ e, FeedIpv4.process [mk "a.org" 1 []; ∅] W = Raise e) ∧
  (FeedFqdn.process FeedFqdn.init [∅] []).1 = Raise (KeyError "observable").
Proof.
  apply (record_without_observable_raises [mk "a.org" 1 []; ∅] ∅).
  - right. left.
  - reflexivity.
Defined.

(** ** The whitelist set of an [Fqdn] instance *)

(** C10. [process] adds the domains of its whitelist argument to the set of
    the instance, where they stay: the set afterwards holds the old
    elements and every domain passed, and a later call on the instance with
    an empty whitelist adds nothing and emits no record that the matcher
    matches against a domain passed before. *)
Theorem fqdn_whitelist_accumulates
    (self : FeedFqdn.state) (data data' : list record) (ws : list string) :
  let self' := (FeedFqdn.process self data (OVal ∘ VStr <$> ws)).2 in
  self ⊆ self' ∧
  (∀ w, w ∈ ws → VStr w ∈ self') ∧
  (FeedFqdn.process self' data' []).2 = self' ∧
  ∀ rv x o w,
    (FeedFqdn.process self' data' []).1 = Ok rv →
    x ∈ rv → x !! "observable" = Some o → w ∈ ws →
    FeedFqdn.match_whitelist {[ VStr w ]} o ≠ Ok true.
Proof.
  intros self'. subst self'.
  destruct (FqdnFacts.add_all_ok self ws) as [wl Ha].
  assert ((FeedFqdn.process self data (OVal ∘ VStr <$> ws)).2 = wl) as ->.
  { unfold FeedFqdn.process. by rewrite Ha. }
  unfold FeedFqdn.process. simpl.
  apply FqdnFacts.add_all_spec in Ha as (Hsub & _ & Hall).
  assert (∀ w, w ∈ ws → VStr w ∈ wl) as Hws.
  { intros w Hw. apply Hall; [done|].
    apply list_elem_of_fmap. by exists w. }
  split; [done|]. split; [done|]. split; [done|].
  intros rv x o w [_ ->]%FqdnFacts.fqdn_filter_loop_spec
    [He _]%list_elem_of_filter Ho Hw Hm.
  apply (FqdnFacts.match_whitelist_mono _ wl) in Hm.
  - unfold fqdn_excluded, getitem in He. rewrite Ho in He. simpl in He.
    congruence.
  - intros v ->%elem_of_singleton. by apply Hws.
Qed.

(** Two calls on one instance: the domain passed to the first call still
    filters in the second. *)
Example fqdn_second_call :
  let self' := (FeedFqdn.process FeedFqdn.init [] [OVal (VStr "example.com")]).2 in
  (FeedFqdn.process self' [mk "www.example.com" 60 []; mk "b.org" 1 []] []).1
  = Ok [mk "b.org" 1 []] ∧
  (FeedFqdn.process FeedFqdn.init
     [mk "www.example.com" 60 []; mk "b.org" 1 []] []).1
  = Ok [mk "www.example.com" 60 []; mk "b.org" 1 []].
Proof. split; reflexivity. Qed.

(** * Further properties of the modelled code *)

(** ** [Client.aggregate]: errors, idempotence, distinct keys *)

Module AggregateMore.
Import Py Client Spec OrderFacts SortFacts AggregateFacts.

Lemma decorate_raise (key : string) (data : list record) (d : record) :
  d ∈ data → d !! key = None → decorate key data = Raise (KeyError key).
Proof.
  intros Hd Hnone. induction data as [|y data IH]; [by apply elem_of_nil in Hd|].
  simpl. unfold getitem. apply elem_of_cons in Hd as [<-|Hd].
  - by rewrite Hnone.
  - destruct (y !! key); simpl; [|done]. by rewrite IH.
Qed.

Lemma decorate_total (key : string) (data : list record) :
  Forall (λ d, is_Some (d !! key)) data → ∃ dec, decorate key data = Ok dec.
Proof.
  induction 1 as [|d data [v Hv] _ [dec IH]]; simpl; [eauto|].
  unfold getitem. rewrite Hv, IH. simpl. eauto.
Qed.

Lemma aggregate_loop_keys (field : string) (ds : list record)
    (x : gset value) (rv out : list record) :
  aggregate_loop field ds x rv = Ok out →
  Forall (λ d, ∃ v, d !! field = Some v ∧ hashable v = Ok tt) ds.
Proof.
  revert x rv. induction ds as [|d ds IH]; simpl; intros x rv; [by constructor|].
  unfold getitem. destruct (d !! field) as [k|] eqn:Hk; simpl; [|done].
  destruct (hashable k) as [[]|] eqn:Hh; simpl; [|done].
  case_decide; intros Hl%IH; constructor; eauto.
Qed.

Lemma aggregate_loop_raise (field : string) (ds : list record)
    (x : gset value) (rv : list record) (d : record) :
  Forall (λ y, ∀ v, y !! field = Some v → hashable v = Ok tt) ds →
  d ∈ ds → d !! field = None →
  aggregate_loop field ds x rv = Raise (KeyError field).
Proof.
  intros HF Hd Hnone. revert x rv.
  induction HF as [|y ds Hy _ IH]; intros x rv; [by apply elem_of_nil in Hd|].
  simpl. unfold getitem. apply elem_of_cons in Hd as [<-|Hd].
  - by rewrite Hnone.
  - destruct (y !! field) as [k|] eqn:Hk; simpl; [|done].
    rewrite (Hy k eq_refl). simpl. case_decide; by apply IH.
Qed.

(** Sorting a list that already descends leaves it as it is. *)
Lemma sort_desc_sorted_id {A} (l : list (value * A)) :
  StronglySorted key_ge l → sort_desc l = Ok l.
Proof.
  induction 1 as [|kx l Hs IH Hkx]; simpl; [done|].
  rewrite IH. simpl. destruct Hkx as [|ky l Hky _]; simpl; [done|].
  unfold key_ge in Hky. by rewrite Hky.
Qed.

Lemma sorted_of_snd (sort : string) (s : list (value * record)) :
  Forall (λ p, p.2 !! sort = Some p.1) s →
  StronglySorted (λ a b, rank_geb sort a b = true) s.*2 →
  StronglySorted key_ge s.
Proof.
  induction 1 as [|p s Hp HF IH]; [constructor|].
  rewrite fmap_cons. intros [Hall Hs]%StronglySorted_cons.
  apply StronglySorted_cons. split; [|by apply IH].
  rewrite Forall_fmap in Hall. rewrite Forall_forall in *.
  intros q Hq. specialize (Hall q Hq). specialize (HF q Hq). simpl in Hall.
  unfold rank_geb, rank_cmp in Hall. rewrite Hp, HF in Hall.
  unfold key_ge, py_lt. by destruct (py_compare p.1 q.1) as [[]|].
Qed.

Lemma sorted_reverse_sorted_id (data : list record) (sort : string) :
  Forall (λ d, is_Some (d !! sort)) data →
  StronglySorted (λ a b, rank_geb sort a b = true) data →
  sorted_reverse data sort = Ok data.
Proof.
  intros [dec Hdec]%decorate_total Hs. unfold sorted_reverse. rewrite Hdec.
  simpl. apply decorate_inv in Hdec as [<- HF].
  by rewrite (sort_desc_sorted_id dec (sorted_of_snd sort dec HF Hs)).
Qed.

(** On records with pairwise different keys the loop keeps everything. *)
Lemma aggregate_loop_nodup (field : string) (ds : list record)
    (x : gset value) (rv : list record) :
  Forall (λ d, ∃ v, d !! field = Some v ∧ hashable v = Ok tt ∧ v ∉ x) ds →
  NoDup ((λ d : record, d !! field) <$> ds) →
  aggregate_loop field ds x rv = Ok (rv ++ ds).
Proof.
  revert x rv. induction ds as [|d ds IH]; simpl; intros x rv HF Hnd.
  - by rewrite app_nil_r.
  - apply Forall_cons in HF as [(k & Hk & Hh & Hx) HF].
    apply NoDup_cons in Hnd as [Hd Hnd].
    unfold getitem. rewrite Hk. simpl. rewrite Hh. simpl.
    rewrite decide_False by done. rewrite IH; [by rewrite <- app_assoc| |done].
    rewrite Forall_forall in *. intros y Hy.
    destruct (HF y Hy) as (v & Hv & Hvh & Hvx). exists v.
    split; [done|]. split; [done|].
    intros [->%elem_of_singleton|?]%elem_of_union; [|done].
    apply Hd. apply list_elem_of_fmap. exists y. by rewrite Hk, Hv.
Qed.

Lemma aggregate_inv (data : list record) (field sort : string) rv :
  aggregate data field sort = Ok rv →
  ∃ S, sorted_reverse data sort = Ok S ∧ S ≡ₚ data ∧ sublist rv S ∧
    Forall (λ d, is_Some (d !! sort)) rv ∧
    StronglySorted (λ a b, rank_geb sort a b = true) rv ∧
    NoDup ((λ d : record, d !! field) <$> rv) ∧
    Forall (λ d, ∃ v, d !! field = Some v ∧ hashable v = Ok tt) S.
Proof.
  unfold aggregate.
  destruct (sorted_reverse data sort) as [S|] eqn:HS; simpl; [|done].
  intros Hrv. pose proof (aggregate_loop_keys _ _ _ _ _ Hrv) as Hkeys.
  apply aggregate_loop_spec in Hrv as (out & -> & Hsub & Hnd & _).
  apply sorted_reverse_spec in HS as (Hperm & Hsome & Hsorted & _).
  exists S. simpl. repeat split; try done.
  - rewrite Forall_forall in *. eauto using elem_of_sublist.
  - eauto using sublist_strongly_sorted.
Qed.

Lemma aggregate_again (data : list record) (field sort : string) rv :
  aggregate data field sort = Ok rv → aggregate rv field sort = Ok rv.
Proof.
  intros (S & _ & _ & Hsub & Hsome & Hsorted & Hnd & Hkeys)%aggregate_inv.
  unfold aggregate.
  rewrite (sorted_reverse_sorted_id rv sort Hsome Hsorted).
  simpl. apply (aggregate_loop_nodup field rv ∅ []); [|done].
  rewrite Forall_forall in *. intros d Hd.
  destruct (Hkeys d) as (v & Hv & Hh); [by eapply elem_of_sublist|].
  exists v. split; [done|]. split; [done|]. apply not_elem_of_empty.
Qed.

End AggregateMore.

(** X1. A record without the rank field makes [aggregate] raise the
    [KeyError] of that field, whatever else the input holds: the keys are
    computed for all records before anything is compared or kept. *)
Theorem aggregate_missing_rank_field
    (data : list record) (field sort : string) (d : record) :
  d ∈ data → d !! sort = None →
  Client.aggregate data field sort = Raise (KeyError sort).
Proof.
  intros Hd Hnone. unfold Client.aggregate, sorted_reverse.
  by rewrite (AggregateMore.decorate_raise sort data d Hd Hnone).
Qed.

Lemma aggregate_missing_rank_field_witness :
  Client.aggregate [mk "a.org" 1 []; tagged_only] "observable" "confidence"
  = Raise (KeyError "confidence").
Proof.
  apply (aggregate_missing_rank_field _ _ _ tagged_only).
  - right. left.
  - reflexivity.
Defined.

(** X2. When every record has a rank of one type and the key values that
    are present are hashable, a record without the key field makes
    [aggregate] raise the [KeyError] of the key field. *)
Theorem aggregate_missing_key_field
    (data : list record) (field sort : string) (k : nat) (d : record) :
  Forall (λ y, ∃ v, y !! sort = Some v ∧ kind v = k) data →
  Forall (λ y, ∀ v, y !! field = Some v → hashable v = Ok tt) data →
  d ∈ data → d !! field = None →
  Client.aggregate data field sort = Raise (KeyError field).
Proof.
  intros Hrank Hhash Hd Hnone. unfold Client.aggregate.
  destruct (AggregateFacts.sorted_reverse_ok _ _ _ Hrank) as [S HS].
  rewrite HS. simpl.
  apply AggregateFacts.sorted_reverse_spec in HS as (Hperm & _).
  apply (AggregateMore.aggregate_loop_raise field S ∅ [] d).
  - by rewrite Hperm.
  - by rewrite Hperm.
  - done.
Qed.

Lemma aggregate_missing_key_field_witness :
  Client.aggregate [mk "a.org" 1 []; <["confidence" := VInt 5]> ∅]
    "observable" "confidence"
  = Raise (KeyError "observable").
Proof.
  apply (aggregate_missing_key_field _ _ _ 0%nat (<["confidence" := VInt 5]> ∅)).
  - repeat (apply Forall_cons; split); try apply Forall_nil;
      eexists; split; reflexivity.
  - apply Forall_cons. split; [|apply Forall_cons; split; [|by apply Forall_nil]].
    + intros v. change (Some (VStr "a.org") = Some v → hashable v = Ok tt).
      by intros [= <-].
    + intros v. change (None = Some v → hashable v = Ok tt). done.
  - right. left.
  - reflexivity.
Defined.

(** X3. [aggregate] is idempotent: aggregating its own result again, by
    the same fields, returns that result unchanged. *)
Theorem aggregate_idempotent (data : list record) (field sort : string) rv :
  Client.aggregate data field sort = Ok rv →
  Client.aggregate rv field sort = Ok rv.
Proof. apply AggregateMore.aggregate_again. Qed.

Lemma aggregate_idempotent_witness :
  Client.aggregate [mk "10.1.1.1" 90 []; mk "1.2.3.4" 85 []]
    "observable" "confidence"
  = Ok [mk "10.1.1.1" 90 []; mk "1.2.3.4" 85 []].
Proof.
  apply (aggregate_idempotent scenario "observable" "confidence").
  reflexivity.
Defined.

(** X4. When the key values of the input are pairwise different,
    [aggregate] drops nothing: its result is the input rearranged. *)
Theorem aggregate_distinct_keys_permutation
    (data : list record) (field sort : string) rv :
  NoDup ((λ d : record, d !! field) <$> data) →
  Client.aggregate data field sort = Ok rv →
  rv ≡ₚ data.
Proof.
  intros Hnd Hrv.
  pose proof Hrv as (S & HS & Hperm & _ & _ & _ & _ & Hkeys)%AggregateMore.aggregate_inv.
  unfold Client.aggregate in Hrv. rewrite HS in Hrv. simpl in Hrv.
  rewrite (AggregateMore.aggregate_loop_nodup field S ∅ []) in Hrv.
  - injection Hrv as <-. done.
  - eapply Forall_impl; [exact Hkeys|]. intros d (v & Hv & Hh).
    exists v. split; [done|]. split; [done|]. apply not_elem_of_empty.
  - by rewrite Hperm.
Qed.

Lemma aggregate_distinct_keys_permutation_witness :
  [mk "b.org" 9 []; mk "a.org" 1 []] ≡ₚ [mk "a.org" 1 []; mk "b.org" 9 []].
Proof.
  apply (aggregate_distinct_keys_permutation _ "observable" "confidence").
  - apply NoDup_cons. split; [|apply NoDup_singleton].
    intros [H|H]%elem_of_cons; [|by apply elem_of_nil in H].
    vm_compute in H. discriminate H.
  - reflexivity.
Defined.

(** ** [Ipv4.process]: what is kept, what is dropped, when it raises *)

Module Ipv4More.
Import Py PyStr Feed FeedIpv4 Spec SpecMore.

Lemma tag_contains_true (tags : value) :
  tag_contains_whitelist tags = Ok true ↔
  ∃ l, tags = VList l ∧ "whitelist" ∈ l.
Proof.
  destruct tags as [n|s|l]; simpl.
  - split; [done|]. by intros (l & ? & _).
  - split; [done|]. by intros (l & ? & _).
  - split.
    + intros [= (d & Hd & ->%bool_decide_eq_true)%existsb_exists].
      exists l. split; [done|]. by apply list_elem_of_In.
    + intros (l' & [= <-] & Hl). f_equal. apply existsb_exists.
      exists "whitelist". split; [by apply list_elem_of_In|].
      by apply bool_decide_eq_true.
Qed.

Lemma tagged_iff (r : record) :
  tagged_whitelist r ↔
  ∃ tags, r !! "tags" = Some tags ∧ tag_contains_whitelist tags = Ok true.
Proof.
  unfold tagged_whitelist. split.
  - intros (l & Hl & Hin). exists (VList l). split; [done|].
    apply tag_contains_true. eauto.
  - intros (tags & Ht & (l & -> & Hin)%tag_contains_true). eauto.
Qed.

Lemma existsb_covers_false (wl : Pytricia.t) (q p : Pytricia.prefix) :
  existsb (λ p, Pytricia.covers p q) wl = false → p ∈ wl →
  Pytricia.covers p q = false.
Proof.
  intros Hex Hp. destruct (Pytricia.covers p q) eqn:Hc; [|done].
  assert (existsb (λ p, Pytricia.covers p q) wl = true) as Ht; [|congruence].
  apply existsb_exists. exists p. split; [by apply list_elem_of_In|done].
Qed.

(** A record passes the filter exactly when it is not self-tagged and no
    prefix of the table covers its observable. *)
Lemma ipv4_excluded_false (wl : Pytricia.t) (r : record) (b : bool) :
  ipv4_excluded wl r = Ok b →
  b = false ↔
  ¬ tagged_whitelist r ∧
  ∀ o q p, r !! "observable" = Some o →
    Pytricia.parse_prefix (str o) = Some q → p ∈ wl →
    Pytricia.covers p q = false.
Proof.
  unfold ipv4_excluded, getitem. rewrite tagged_iff.
  destruct (r !! "tags") as [tags|]; simpl; [|done].
  destruct (tag_contains_whitelist tags) as [[]|] eqn:Ht; simpl; [| |done].
  - intros [= <-]. split; [done|]. intros [Hn _]. destruct Hn. eauto.
  - destruct (r !! "observable") as [o|]; simpl; [|done].
    unfold Pytricia.contains.
    destruct (Pytricia.parse_prefix (str o)) as [q|] eqn:Hq; [|done].
    intros [= <-]. split.
    + intros Hex. split.
      * intros (tags' & [= <-] & Ht'). congruence.
      * intros o' q' p [= <-] Hq' Hp. assert (q' = q) as -> by congruence.
        by apply existsb_covers_false with wl.
    + intros [_ Hall]. destruct (existsb _ wl) eqn:Hex; [|done].
      apply existsb_exists in Hex as (p & Hp%list_elem_of_In & Hc).
      by rewrite (Hall o q p eq_refl Hq Hp) in Hc.
Qed.

Lemma insert_whitelist_parsed (wl t : Pytricia.t) (whitelist : list obj) :
  insert_whitelist wl whitelist = Ok t →
  ∀ y, y ∈ whitelist → ∃ o p, subscript y "observable" = Ok o ∧
    Pytricia.parse_prefix (entry_key (str o)) = Some p.
Proof.
  revert wl. induction whitelist as [|y rest IH]; simpl; intros wl.
  - intros _ y Hy. by apply elem_of_nil in Hy.
  - destruct (subscript y "observable") as [o|] eqn:Ho; simpl; [|done].
    rewrite Ipv4Facts.setitem_entry_key.
    destruct (Pytricia.parse_prefix (entry_key (str o))) as [q|] eqn:Hq;
      simpl; [|done].
    intros Ht y' [->|Hy']%elem_of_cons; [eauto|]. by eapply IH.
Qed.

Lemma insert_whitelist_raise (wl : Pytricia.t) (whitelist : list obj) (y : obj) :
  y ∈ whitelist → (∀ o, subscript y "observable" ≠ Ok o) →
  ∃ e, insert_whitelist wl whitelist = Raise e.
Proof.
  intros Hy Hbad.
  destruct (insert_whitelist wl whitelist) as [t|e] eqn:Hi; [|eauto].
  destruct (insert_whitelist_parsed _ _ _ Hi y Hy) as (o & p & Ho & Hp).
  by destruct (Hbad o).
Qed.

(** The key of an entry and the entry looked up bare denote one prefix. *)
Lemma entry_key_same_prefix (s : string) (p : Pytricia.prefix) :
  Pytricia.parse_prefix (entry_key s) = Some p →
  Pytricia.parse_prefix s = Some p.
Proof.
  unfold entry_key. destruct (contains_char "/" s) eqn:Hs; [done|].
  unfold Pytricia.parse_prefix.
  rewrite (KeyFacts.cut_app_sep "/" s "32" Hs).
  rewrite (KeyFacts.cut_no_sep "/" s Hs).
  destruct (Pytricia.parse_addr s); [done|done].
Qed.

Lemma covers_refl (p : Pytricia.prefix) : Pytricia.covers p p = true.
Proof.
  unfold Pytricia.covers. by rewrite Z.leb_refl, Z.eqb_refl.
Qed.

(** [process] in one piece, with the table described by [ipv4_listed]. *)
Lemma process_listed (data : list record) (W : list obj) rv :
  process data W = Ok rv →
  ∃ wl, (∀ p, p ∈ wl ↔ ipv4_listed W p) ∧
    Forall (λ y, ∃ b, ipv4_excluded wl y = Ok b) data ∧
    rv = filter (λ y, ipv4_excluded wl y = Ok false) data ∧
    ∀ y, y ∈ W → ∃ o p, subscript y "observable" = Ok o ∧
      Pytricia.parse_prefix (entry_key (str o)) = Some p.
Proof.
  intros Hp. pose proof Hp as (wl & Hwl & HF & ->)%Ipv4Facts.process_spec.
  exists wl. split; [done|]. split; [done|]. split; [done|].
  unfold process in Hp.
  destruct (insert_perm Pytricia.empty PERM_WHITELIST) as [t0|]; simpl in Hp;
    [|done].
  destruct (insert_whitelist t0 W) as [wl'|] eqn:Hi; simpl in Hp; [|done].
  by eapply insert_whitelist_parsed.
Qed.

End Ipv4More.

Import SpecMore.

(** ** Bare addresses in the dynamic IPv4 whitelist *)

(** What the work-around answers: the table stores a key without '/' with
    length 0, and such an entry covers every address. *)
Example bare_key_without_workaround :
  Pytricia.setitem Pytricia.empty "172.16.1.60"
  = Ok [Pytricia.Prefix 2886730044 0] ∧
  Pytricia.contains [Pytricia.Prefix 2886730044 0] "8.8.8.8" = Ok true.
Proof. split; reflexivity. Qed.



(** The entry in a run: of two neighbouring addresses only the
    whitelisted one leaves the feed. *)
Example bare_address_in_feed :
  FeedIpv4.process [mk "172.16.1.60" 85 []; mk "172.16.1.61" 80 []]
    [ODict (mk "172.16.1.60" 50 ["whitelist"])]
  = Ok [mk "172.16.1.61" 80 []].
Proof. reflexivity. Qed.

(** X5. When [Ipv4.process] returns, the feed is the input with records
    left out, in input order, and a record of the input is in the feed
    exactly when its tags list does not hold 'whitelist' and no block of
    the permanent list nor any entry of the dynamic whitelist covers its
    observable. *)
Theorem ipv4_feed_characterised (data : list record) (W : list obj) rv :
  FeedIpv4.process data W = Ok rv →
  sublist rv data ∧
  ∀ r, r ∈ rv ↔
    r ∈ data ∧ ¬ tagged_whitelist r ∧
    ∀ o q p, r !! "observable" = Some o →
      Pytricia.parse_prefix (str o) = Some q → ipv4_listed W p →
      Pytricia.covers p q = false.
Proof.
  intros (wl & Hwl & HF & -> & _)%Ipv4More.process_listed.
  split; [apply sublist_filter|]. intros r. rewrite list_elem_of_filter.
  rewrite Forall_forall in HF. split.
  - intros [He Hr]. split; [done|].
    destruct (proj1 (Ipv4More.ipv4_excluded_false wl r false He) eq_refl)
      as [Hnt Hall].
    split; [done|]. intros o q p Ho Hq Hp%Hwl. eauto.
  - intros (Hr & Hnt & Hall). split; [|done].
    destruct (HF r Hr) as [b Hb]. rewrite Hb. f_equal.
    apply (Ipv4More.ipv4_excluded_false wl r b Hb). split; [done|].
    intros o q p Ho Hq Hp%Hwl. eauto.
Qed.

Lemma ipv4_feed_characterised_witness :
  sublist [mk "1.2.3.4" 85 []; mk "1.2.3.4" 40 []] scenario.
Proof.
  refine (proj1 (ipv4_feed_characterised scenario [] _ _)). reflexivity.
Defined.

(** X6. A record whose observable is written like the observable of a
    dynamic whitelist entry (a bare address or a block) is never in the
    feed of [Ipv4.process]. *)
Theorem ipv4_whitelisted_observable_dropped
    (data : list record) (W : list obj) rv (y r : record) (o : value) :
  FeedIpv4.process data W = Ok rv →
  ODict y ∈ W → y !! "observable" = Some o →
  r !! "observable" = Some o →
  r ∉ rv.
Proof.
  intros (wl & Hwl & HF & -> & Hparsed)%Ipv4More.process_listed Hy Hyo Hro.
  intros [He _]%list_elem_of_filter.
  destruct (Hparsed _ Hy) as (o' & p & Ho' & Hp). simpl in Ho'.
  unfold getitem in Ho'. rewrite Hyo in Ho'. injection Ho' as <-.
  destruct (proj1 (Ipv4More.ipv4_excluded_false wl r false He) eq_refl)
    as [_ Hall].
  assert (p ∈ wl) as Hin.
  { apply Hwl. right. exists (ODict y), o. split; [done|]. split; [|done].
    simpl. unfold getitem. by rewrite Hyo. }
  specialize (Hall o p p Hro (Ipv4More.entry_key_same_prefix _ _ Hp) Hin).
  by rewrite Ipv4More.covers_refl in Hall.
Qed.

Lemma ipv4_whitelisted_observable_dropped_witness :
  mk "8.8.8.8" 90 [] ∉ [mk "1.2.3.4" 85 []].
Proof.
  apply (ipv4_whitelisted_observable_dropped
           [mk "1.2.3.4" 85 []; mk "8.8.8.8" 90 []]
           [ODict (mk "8.8.8.8" 0 ["whitelist"])] _
           (mk "8.8.8.8" 0 ["whitelist"]) _ (VStr "8.8.8.8")).
  - reflexivity.
  - left.
  - reflexivity.
  - reflexivity.
Defined.

(** X7. The feed of [Ipv4.process] depends on the dynamic whitelist only
    as a set: two whitelists with the same entries, in any order and
    multiplicity, give the same feed. *)
Theorem ipv4_whitelist_as_set (data : list record) (W W' : list obj) rv rv' :
  (∀ y, y ∈ W ↔ y ∈ W') →
  FeedIpv4.process data W = Ok rv → FeedIpv4.process data W' = Ok rv' →
  rv = rv'.
Proof.
  intros Hsame (wl & Hwl & HF & -> & _)%Ipv4More.process_listed
    (wl' & Hwl' & HF' & -> & _)%Ipv4More.process_listed.
  assert (∀ p, ipv4_listed W p ↔ ipv4_listed W' p) as Hl.
  { intros p. unfold ipv4_listed. split;
      (intros [?|(y & o & Hy & ?)]; [by left|right; exists y, o];
       split; [by apply Hsame|done]). }
  assert (wl ⊆ wl') as H1 by (intros p Hp; by apply Hwl', Hl, Hwl).
  assert (wl' ⊆ wl) as H2 by (intros p Hp; by apply Hwl, Hl, Hwl').
  apply (anti_symm sublist); apply Ipv4Facts.sublist_filter_impl.
  - eapply Forall_impl; [exact HF'|]. intros y [[] Hb] Hb'; [|done].
    apply (Ipv4Facts.ipv4_excluded_mono wl' wl) in Hb; [congruence|done].
  - eapply Forall_impl; [exact HF|]. intros y [[] Hb] Hb'; [|done].
    apply (Ipv4Facts.ipv4_excluded_mono wl wl') in Hb; [congruence|done].
Qed.

Lemma ipv4_whitelist_as_set_witness :
  [mk "1.2.3.4" 85 []] = [mk "1.2.3.4" 85 []].
Proof.
  apply (ipv4_whitelist_as_set
           [mk "1.2.3.4" 85 []; mk "8.8.8.8" 90 []; mk "9.9.9.9" 70 []]
           [ODict (mk "8.8.8.8" 0 []); ODict (mk "9.9.9.0/24" 0 [])]
           [ODict (mk "9.9.9.0/24" 0 []); ODict (mk "8.8.8.8" 0 []);
            ODict (mk "9.9.9.0/24" 0 [])]).
  - intros y. rewrite !elem_of_cons, !elem_of_nil. tauto.
  - reflexivity.
  - reflexivity.
Defined.

(** X8. An element of the whitelist argument that is not a record, or a
    record without the key 'observable', makes [Ipv4.process] raise,
    whatever the data, the empty list included: the table is built before
    any record is looked at. *)
Theorem ipv4_bad_whitelist_entry_raises
    (data : list record) (W : list obj) (y : obj) :
  y ∈ W →
  (∀ o, subscript y "observable" ≠ Ok o) →
  ∃ e, FeedIpv4.process data W = Raise e.
Proof.
  intros Hy Hbad. unfold FeedIpv4.process.
  destruct (FeedIpv4.insert_perm _ _) as [t0|]; simpl; [|eauto].
  destruct (Ipv4More.insert_whitelist_raise t0 W y Hy Hbad) as [e ->].
  simpl. eauto.
Qed.

Lemma ipv4_bad_whitelist_entry_raises_witness :
  ∃ e, FeedIpv4.process [] [ODict (mk "8.8.8.8" 0 []); ODict tagged_only]
       = Raise e.
Proof.
  apply (ipv4_bad_whitelist_entry_raises [] _ (ODict tagged_only)).
  - right. left.
  - intros o Ho. discriminate Ho.
Defined.

(** X9. [Ipv4.process] is idempotent: run again on its own feed, with the
    same whitelist, it returns that feed. *)
Theorem ipv4_process_idempotent (data : list record) (W : list obj) rv :
  FeedIpv4.process data W = Ok rv → FeedIpv4.process rv W = Ok rv.
Proof.
  intros Hp. pose proof Hp as (wl & _ & HF & Hrv)%Ipv4Facts.process_spec.
  unfold FeedIpv4.process in *.
  destruct (FeedIpv4.insert_perm _ _) as [t0|]; simpl in *; [|done].
  destruct (FeedIpv4.insert_whitelist t0 W) as [wl'|]; simpl in *; [|done].
  pose proof Hp as [HF' Hrv']%Ipv4Facts.ipv4_filter_loop_spec.
  simpl in Hrv'. clear HF Hrv wl.
  assert (Forall (λ y, ∃ b, ipv4_excluded wl' y = Ok b) rv) as HFrv.
  { rewrite Forall_forall in *. intros y Hy. apply HF'. subst rv.
    by apply list_elem_of_filter in Hy as [_ Hy]. }
  destruct (Ipv4Facts.ipv4_filter_loop_ok wl' rv [] HFrv) as [out Hout].
  rewrite Hout. f_equal.
  apply Ipv4Facts.ipv4_filter_loop_spec in Hout as [_ ->]. simpl.
  rewrite Hrv', list_filter_filter. apply list_filter_iff. tauto.
Qed.

Lemma ipv4_process_idempotent_witness :
  FeedIpv4.process [mk "1.2.3.4" 85 []; mk "1.2.3.4" 40 []] []
  = Ok [mk "1.2.3.4" 85 []; mk "1.2.3.4" 40 []].
Proof.
  apply (ipv4_process_idempotent scenario []). reflexivity.
Defined.

(** ** [Fqdn]: the matcher, the filter and the set *)

Module FqdnMore.
Import Py PyStr Feed FeedFqdn Spec.

Lemma split_length_sep (c : ascii) (w : string) :
  contains_char c w = true → (2 ≤ length (split c w))%nat.
Proof.
  induction w as [|a w IH]; simpl; [done|].
  destruct (StringFacts.split_cons c w) as (h & t & Hs).
  case_decide; intros Hc.
  - rewrite Hs. simpl. lia.
  - specialize (IH Hc). rewrite Hs in *. simpl in *. lia.
Qed.

Lemma fqdn_excluded_false (wl : state) (r : record) :
  fqdn_excluded wl r = Ok false ↔
  ∃ s, r !! "observable" = Some (VStr s) ∧
       match_whitelist wl (VStr s) = Ok false.
Proof.
  unfold fqdn_excluded, getitem. split.
  - destruct (r !! "observable") as [[n|s|l]|]; simpl; try done. eauto.
  - intros (s & -> & Hm). done.
Qed.

Lemma init_elements (v : value) :
  v ∈ init ↔ ∃ w, w ∈ PERM_WHITELIST ∧ v = VStr w.
Proof.
  unfold init. generalize PERM_WHITELIST. intros l.
  assert (∀ acc : state, v ∈ fold_left (λ wl w, {[VStr w]} ∪ wl) l acc
                         ↔ (∃ w, w ∈ l ∧ v = VStr w) ∨ v ∈ acc) as H.
  { induction l as [|a l IH]; intros acc; simpl.
    - split; [auto|]. intros [(w & Hw & _)|?]; [|done].
      by apply elem_of_nil in Hw.
    - rewrite IH, elem_of_union, elem_of_singleton. split.
      + intros [(w & Hw & ->)|[->|?]]; [left; exists w|left; exists a|by right];
          (split; [|done]); [by right|left].
      + intros [(w & [->|Hw]%elem_of_cons & ->)|?]; eauto. }
  rewrite H, elem_of_empty. tauto.
Qed.

End FqdnMore.

(** X10. [match_whitelist] tests the candidate without its first [k]
    labels only for the [k] with [2 * k] below the number of labels: it
    answers [True] exactly when one of those suffixes is in the set. *)
Theorem fqdn_match_tested_suffixes (wl : FeedFqdn.state) (s : string) :
  FeedFqdn.match_whitelist wl (VStr s) = Ok true ↔
  ∃ k : nat, (2 * k < length (split "." s))%nat ∧
             VStr (join "." (drop k (split "." s))) ∈ wl.
Proof.
  simpl. split.
  - intros [= H%FqdnFacts.match_loop_spec]. done.
  - intros H. f_equal. by apply FqdnFacts.match_loop_spec.
Qed.

(** X11. A domain of the set is matched, and so is every name made of one
    more label in front of a domain of the set that has at least two
    labels. *)
Theorem fqdn_match_exact_and_direct_subdomain
    (wl : FeedFqdn.state) (w p : string) :
  VStr w ∈ wl →
  FeedFqdn.match_whitelist wl (VStr w) = Ok true ∧
  (contains_char "." p = false → contains_char "." w = true →
   FeedFqdn.match_whitelist wl (VStr (p +:+ "." +:+ w)) = Ok true).
Proof.
  intros Hw. split.
  - simpl. f_equal. apply FqdnFacts.match_loop_spec. exists 0%nat.
    rewrite drop_0, StringFacts.join_split. split; [|done].
    destruct (StringFacts.split_cons "." w) as (h & t & ->). simpl. lia.
  - intros Hp Hdot. simpl. f_equal. apply FqdnFacts.match_loop_spec.
    exists 1%nat. change (p +:+ "." +:+ w) with (p +:+ String "."%char w).
    rewrite (StringFacts.split_app_sep "." p w Hp).
    simpl. rewrite drop_0, StringFacts.join_split. split; [|done].
    pose proof (FqdnMore.split_length_sep "." w Hdot). lia.
Qed.

Lemma fqdn_match_exact_and_direct_subdomain_witness :
  FeedFqdn.match_whitelist FeedFqdn.init (VStr "google.com") = Ok true ∧
  (contains_char "." "mail" = false → contains_char "." "google.com" = true →
   FeedFqdn.match_whitelist FeedFqdn.init (VStr ("mail" +:+ "." +:+ "google.com"))
   = Ok true).
Proof.
  apply (fqdn_match_exact_and_direct_subdomain FeedFqdn.init "google.com" "mail").
  apply FqdnMore.init_elements. exists "google.com". split; [left|done].
Defined.

(** X12. When [Fqdn.process] returns, the set of the instance holds what it
    held before and the elements of the whitelist argument, the feed is the
    input with records left out, in input order, and a record of the input
    is in the feed exactly when its observable is a string that the matcher
    does not match against that set. *)
Theorem fqdn_feed_characterised
    (self self' : FeedFqdn.state) (data : list record) (W : list obj) rv :
  FeedFqdn.process self data W = (Ok rv, self') →
  (∀ v, v ∈ self' ↔ v ∈ self ∨ OVal v ∈ W) ∧
  sublist rv data ∧
  ∀ r, r ∈ rv ↔
    r ∈ data ∧ ∃ s, r !! "observable" = Some (VStr s) ∧
                    FeedFqdn.match_whitelist self' (VStr s) = Ok false.
Proof.
  unfold FeedFqdn.process.
  destruct (FeedFqdn.add_all self W) as [[[]|] wl] eqn:Ha; [|done].
  intros [= [HF ->]%FqdnFacts.fqdn_filter_loop_spec <-].
  apply FqdnFacts.add_all_spec in Ha as (Hsub & Hfrom & Hall).
  split; [|split].
  - intros v. split; [by apply Hfrom|]. intros [Hv|Hv]; [by apply Hsub|].
    by apply Hall.
  - apply sublist_filter.
  - intros r. simpl. rewrite list_elem_of_filter, FqdnMore.fqdn_excluded_false.
    tauto.
Qed.

Lemma fqdn_feed_characterised_witness :
  sublist [mk "b.org" 1 []] [mk "a.example.com" 2 []; mk "b.org" 1 []].
Proof.
  refine (proj1 (proj2 (fqdn_feed_characterised FeedFqdn.init _
            [mk "a.example.com" 2 []; mk "b.org" 1 []]
            [OVal (VStr "example.com")] _ _))).
  reflexivity.
Defined.

(** X13. A fresh [Fqdn] holds exactly the domains of the permanent list. *)
Theorem fqdn_init_is_permanent_list (v : value) :
  v ∈ FeedFqdn.init ↔ ∃ w, w ∈ FeedFqdn.PERM_WHITELIST ∧ v = VStr w.
Proof. apply FqdnMore.init_elements. Qed.

(** ** The feed branch of [main] *)

Module FlowMore.
Import Py Feed Spec.

Lemma run_sublist ip6 url (p : plugin) (ret : list record) (wl : list obj) out :
  p = Ipv4 ∨ p = Fqdn → Main.run ip6 url p ret wl = Ok out → sublist out ret.
Proof.
  intros [->| ->]; simpl.
  - intros (t & _ & _ & ->)%Ipv4Facts.process_spec. apply sublist_filter.
  - unfold FeedFqdn.process.
    destruct (FeedFqdn.add_all FeedFqdn.init wl) as [[[]|] t]; [|done].
    simpl. intros [_ ->]%FqdnFacts.fqdn_filter_loop_spec. apply sublist_filter.
Qed.

End FlowMore.

(** X14. With the type fqdn and a whitelist search that returned at least
    one record, the feed branch raises [TypeError] after the aggregation:
    [Fqdn.process] adds the elements of its whitelist argument to a set,
    and a record (a dict) is not hashable. *)
Theorem fqdn_feed_with_whitelist_records_raises
    (ip6 url : list record → list obj → res (list record))
    (ret ret' : list record) (w : record) (wl : list record) :
  Client.aggregate_default ret = Ok ret' →
  Main.feed ip6 url "fqdn" ret (w :: wl)
  = ([Main.EvAggregate; Main.EvProcess Fqdn], Raise TypeError).
Proof.
  intros Hagg. unfold Main.feed. rewrite Hagg. reflexivity.
Qed.

Lemma fqdn_feed_with_whitelist_records_raises_witness :
  Main.feed (λ _ _, Ok []) (λ _ _, Ok []) "fqdn"
    [mk "a.example.com" 2 []] [mk "example.com" 9 ["whitelist"]]
  = ([Main.EvAggregate; Main.EvProcess Fqdn], Raise TypeError).
Proof.
  apply (fqdn_feed_with_whitelist_records_raises _ _ _
           [mk "a.example.com" 2 []]).
  reflexivity.
Defined.

(** X15. A feed that the branch produces for the type ipv4 or fqdn holds
    records of the search result only, at most one per observable, in
    descending order of confidence. *)
Theorem feed_output_well_formed
    (ip6 url : list record → list obj → res (list record))
    (otype : string) (ret wl : list record) ev out :
  otype = "ipv4" ∨ otype = "fqdn" →
  Main.feed ip6 url otype ret wl = (ev, Ok out) →
  (∀ r, r ∈ out → r ∈ ret) ∧
  NoDup ((λ r : record, r !! "observable") <$> out) ∧
  StronglySorted (λ a b, rank_geb "confidence" a b = true) out.
Proof.
  intros Hot. unfold Main.feed.
  destruct (Client.aggregate_default ret) as [rv|] eqn:Hagg; [|done].
  apply AggregateMore.aggregate_inv
    in Hagg as (S & _ & Hperm & Hsub & _ & Hsorted & Hnd & _).
  assert (∃ p, factory otype = Some p ∧ (p = Ipv4 ∨ p = Fqdn)) as (p & -> & Hp).
  { destruct Hot as [-> | ->]; eexists; (split; [reflexivity|]); auto. }
  intros [= _ Hout%FlowMore.run_sublist]; [|done].
  split; [|split].
  - intros r Hr. rewrite <- Hperm. eauto using elem_of_sublist.
  - eapply sublist_NoDup; [exact Hnd|]. apply fmap_sublist. by etrans.
  - eauto using AggregateFacts.sublist_strongly_sorted.
Qed.

Lemma feed_output_well_formed_witness :
  (∀ r, r ∈ [mk "1.2.3.4" 85 []] → r ∈ scenario) ∧
  NoDup ((λ r : record, r !! "observable") <$> [mk "1.2.3.4" 85 []]) ∧
  StronglySorted (λ a b, rank_geb "confidence" a b = true) [mk "1.2.3.4" 85 []].
Proof.
  apply (feed_output_well_formed (λ _ _, Ok []) (λ _ _, Ok []) "ipv4"
           scenario [] [Main.EvAggregate; Main.EvProcess Ipv4]).
  - by left.
  - reflexivity.
Defined.

(** X16. With [--feed], giving [--aggregate observable] as well changes
    nothing: the feed branch aggregates by observable anyway, and
    aggregating twice is aggregating once. *)
Theorem aggregate_option_redundant_with_feed
    (ip6 url : list record → list obj → res (list record))
    (otype : string) (ret wl : list record) :
  MainFlow.results ip6 url (Some "observable") true otype ret wl
  = MainFlow.results ip6 url None true otype ret wl.
Proof.
  unfold MainFlow.results. rewrite decide_False by done. simpl.
  unfold Main.feed at 2. fold (Client.aggregate_default ret).
  destruct (Client.aggregate_default ret) as [rv|e] eqn:Hagg; simpl; [|done].
  unfold Main.feed.
  rewrite (AggregateMore.aggregate_again _ _ _ _ Hagg : Client.aggregate_default rv = Ok rv).
  by destruct (factory otype).
Qed.

(** ** [factory] and unhashable keys *)

(** X17. [factory] returns a plugin class exactly for the four names
    ipv4, ipv6, fqdn and url, and [None] for every other name. *)
Theorem factory_accepts_four_names (name : string) :
  is_Some (factory name) ↔ name ∈ ["ipv4"; "ipv6"; "fqdn"; "url"].
Proof.
  split.
  - intros Hs. destruct (decide (name ∈ ["ipv4"; "ipv6"; "fqdn"; "url"]))
      as [|Hn]; [done|].
    rewrite (factory_unsupported name Hn) in Hs. by destruct Hs.
  - rewrite !elem_of_cons, elem_of_nil.
    intros [->|[->|[->|[->|[]]]]]; by eexists.
Qed.

Module KeyMore.
Import Py Client Spec.

Lemma aggregate_loop_unhashable (field : string) (ds : list record)
    (x : gset value) (rv : list record) (d : record) (l : list string) :
  Forall (λ y, is_Some (y !! field)) ds →
  d ∈ ds → d !! field = Some (VList l) →
  aggregate_loop field ds x rv = Raise TypeError.
Proof.
  intros HF Hd Hl. revert x rv.
  induction HF as [|y ds [k Hk] _ IH]; intros x rv; [by apply elem_of_nil in Hd|].
  simpl. unfold getitem. rewrite Hk. simpl.
  apply elem_of_cons in Hd as [<-|Hd].
  - rewrite Hl in Hk. injection Hk as <-. done.
  - destruct k; simpl; [| |done]; case_decide; by apply IH.
Qed.

End KeyMore.

(** X18. Aggregating by a field whose value is a list in some record (the
    tags, say) raises [TypeError], provided every record has that field and
    a rank of one type: a list cannot be a member of the set of seen
    keys. *)
Theorem aggregate_list_valued_key
    (data : list record) (field sort : string) (k : nat)
    (d : record) (l : list string) :
  Forall (λ y, ∃ v, y !! sort = Some v ∧ kind v = k) data →
  Forall (λ y, is_Some (y !! field)) data →
  d ∈ data → d !! field = Some (VList l) →
  Client.aggregate data field sort = Raise TypeError.
Proof.
  intros Hrank Hkey Hd Hl. unfold Client.aggregate.
  destruct (AggregateFacts.sorted_reverse_ok _ _ _ Hrank) as [S HS].
  rewrite HS. simpl.
  apply AggregateFacts.sorted_reverse_spec in HS as (Hperm & _).
  apply (KeyMore.aggregate_loop_unhashable field S ∅ [] d l).
  - by rewrite Hperm.
  - by rewrite Hperm.
  - done.
Qed.

Lemma aggregate_list_valued_key_witness :
  Client.aggregate scenario "tags" "confidence" = Raise TypeError.
Proof.
  apply (aggregate_list_valued_key scenario "tags" "confidence" 0%nat
           (mk "1.2.3.4" 85 []) []).
  - repeat (apply Forall_cons; split); try (by apply Forall_nil);
      eexists; split; reflexivity.
  - repeat (apply Forall_cons; split); try (by apply Forall_nil);
      eexists; reflexivity.
  - left.
  - reflexivity.
Defined.
